(** * cloudflare-gateway-pihole-scripts: the helper library

  A shallow embedding of [src/lib/helpers.js] and of the second copy of
  that file, [src/unnamed/part_000], with the properties of the
  token-rotating [request] loop and of [normalizeDomain]. The two copies
  have the same [normalizeDomain] and different [request] functions.

  Conventions.
  - A JavaScript string is a [string]; a character stands for one code
    unit in the Latin-1 range.
  - [undefined] is [None]: a value that may be undefined is an [option].
  - [console.log] and [console.warn] lines are not part of the model.
  - The effects of [request] ([fetch], [wait], [notifyWebhook]) are
    recorded, in program order, in a trace of events. *)

From stdpp Require Import base option list strings gmap pretty.
From Stdlib Require Import Ascii ZArith Lia.

Local Open Scope string_scope.
Set Warnings "-register-all".

(** ** String helpers of the JavaScript runtime *)

Module JsString.

(** [s.startsWith(p)], returning what follows the prefix. *)
Fixpoint strip_prefix (p s : string) : option string :=
  match p with
  | EmptyString => Some s
  | String a p' =>
      match s with
      | EmptyString => None
      | String b s' => if decide (a = b) then strip_prefix p' s' else None
      end
  end.

(** [s.replace(pat, "")] for a string pattern: only the first
    occurrence is removed. *)
Fixpoint replace_first (pat s : string) : string :=
  match strip_prefix pat s with
  | Some rest => rest
  | None =>
      match s with
      | EmptyString => EmptyString
      | String a s' => String a (replace_first pat s')
      end
  end.

(** The class [\s] on Latin-1 code units: TAB, LF, VT, FF, CR, SPACE and
    NO-BREAK SPACE. *)
Definition is_space (a : ascii) : bool :=
  let n := nat_of_ascii a in
  ((9 <=? n) && (n <=? 13) || (n =? 32) || (n =? 160))%nat.

Fixpoint skip_spaces (s : string) : string :=
  match s with
  | EmptyString => EmptyString
  | String a s' => if is_space a then skip_spaces s' else s
  end.

(** [s] contains [sub]. *)
Definition contains (sub s : string) : Prop :=
  ∃ before after, s = before ++ sub ++ after.

End JsString.

(** ** [normalizeDomain] *)

Module Normalize.
Import JsString.

(** The alternatives of the group [(0\.0\.0\.0|127\.0\.0\.1|::1|::)], in
    the order the regular expression tries them. *)
Definition host_prefixes : list string :=
  ["0.0.0.0"; "127.0.0.1"; "::1"; "::"].

(** One alternative followed by [\s+], matched at the start of [s]:
    what is left after the match. The quantifier is greedy and nothing
    follows it, so it takes every space. *)
Definition match_alternative (alt s : string) : option string :=
  match strip_prefix alt s with
  | Some (String a rest) => if is_space a then Some (skip_spaces rest) else None
  | _ => None
  end.

Fixpoint match_alternatives (alts : list string) (s : string) : option string :=
  match alts with
  | [] => None
  | alt :: alts' =>
      match match_alternative alt s with
      | Some rest => Some rest
      | None => match_alternatives alts' s
      end
  end.

(** [s.replace(/(0\.0\.0\.0|127\.0\.0\.1|::1|::)\s+/, "")]: the regular
    expression has no anchor and no [g] flag, so the leftmost match is
    removed, wherever it is. *)
Fixpoint strip_host_prefix (s : string) : string :=
  match match_alternatives host_prefixes s with
  | Some rest => rest
  | None =>
      match s with
      | EmptyString => EmptyString
      | String a s' => String a (strip_host_prefix s')
      end
  end.

Definition normalizeDomain (value : string) (isAllowlisting : bool) : string :=
  let normalized :=
    replace_first "^"
      (replace_first "*."
        (replace_first "^$important"
          (replace_first "||"
            (strip_host_prefix value)))) in
  if isAllowlisting then replace_first "@@||" normalized
  else normalized.

End Normalize.

(** ** Values of the JavaScript runtime *)

Module Js.

(** A parsed JSON body. Numbers are restricted to the integers that
    JavaScript holds exactly and prints in plain decimal; the fields of an
    object are its own properties, in order, under distinct keys. *)
Inductive json : Type :=
| JNull
| JBool (b : bool)
| JNum (n : Z)
| JStr (s : string)
| JArr (items : list json)
| JObj (fields : list (string * json)).

(** An error object, as thrown by [fetch], by [response.json()] or by
    [new Error(message)]. *)
Record js_error : Type := JsError { err_name : string; err_message : string }.

(** [new Error(message)] *)
Definition new_Error (message : string) : js_error := JsError "Error" message.

(** [Error.prototype.toString], what [`${error}`] evaluates to. *)
Definition error_to_string (e : js_error) : string :=
  if decide (err_name e = "") then err_message e
  else if decide (err_message e = "") then err_name e
  else err_name e ++ ": " ++ err_message e.

(** ToBoolean, on a value that may be undefined. *)
Definition truthy (v : option json) : bool :=
  match v with
  | None | Some JNull => false
  | Some (JBool b) => b
  | Some (JNum n) => negb (n =? 0)%Z
  | Some (JStr s) => negb (bool_decide (s = ""))
  | Some (JArr _) | Some (JObj _) => true
  end.

(** ToBoolean on a string that may be undefined: what [filter(Boolean)]
    and [!currentToken] test. *)
Definition truthy_string (v : option string) : bool :=
  match v with
  | None => false
  | Some s => negb (bool_decide (s = ""))
  end.

Fixpoint own_property (key : string) (fields : list (string * json)) : option json :=
  match fields with
  | [] => None
  | (k, v) :: rest => if decide (k = key) then Some v else own_property key rest
  end.

(** ToString, what a template literal does to an interpolated value. An
    array joins its elements with commas, [null] elements as the empty
    string. *)
Fixpoint to_string (v : json) : string :=
  match v with
  | JNull => "null"
  | JBool true => "true"
  | JBool false => "false"
  | JNum n => pretty n
  | JStr s => s
  | JArr items =>
      (fix join (l : list json) : string :=
         match l with
         | [] => ""
         | x :: l' =>
             let first := match x with JNull => "" | _ => to_string x end in
             match l' with
             | [] => first
             | _ :: _ => first ++ "," ++ join l'
             end
         end) items
  | JObj _ => "[object Object]"
  end.

Definition template (v : option json) : string :=
  match v with
  | None => "undefined"
  | Some j => to_string j
  end.

(** [`${s}`] for a string that may be undefined. *)
Definition template_string (v : option string) : string :=
  match v with
  | None => "undefined"
  | Some s => s
  end.

(** Evaluating an expression either gives a value or raises the engine's
    TypeError. *)
Inductive evaluated (A : Type) : Type :=
| Value (a : A)
| TypeError.
Arguments Value {A} a.
Arguments TypeError {A}.

(** ['errors' in data]: the right operand must be an object. *)
Definition has_errors (data : json) : evaluated bool :=
  match data with
  | JObj fields => Value (bool_decide (is_Some (own_property "errors" fields)))
  | JArr _ => Value false
  | _ => TypeError
  end.

(** [v.name] for a property name that no primitive and no array has. *)
Definition get_named (name : string) (v : option json) : evaluated (option json) :=
  match v with
  | None | Some JNull => TypeError
  | Some (JObj fields) => Value (own_property name fields)
  | Some _ => Value None
  end.

(** [v[0]] *)
Definition get_first (v : option json) : evaluated (option json) :=
  match v with
  | None | Some JNull => TypeError
  | Some (JArr items) => Value (head items)
  | Some (JStr (String a _)) => Value (Some (JStr (String a "")))
  | Some (JObj fields) => Value (own_property "0" fields)
  | Some _ => Value None
  end.

(** A JavaScript number used as an array index: a natural number, or NaN
    once a remainder by zero has been taken. *)
Inductive index : Type :=
| Idx (n : nat)
| NaN.

(** [tokens[i]] *)
Definition at_index {A} (l : list A) (i : index) : option A :=
  match i with
  | Idx n => l !! n
  | NaN => None
  end.

(** [i === 0] *)
Definition is_zero (i : index) : bool :=
  match i with
  | Idx 0 => true
  | _ => false
  end.

End Js.

(** ** The HTTP boundary and the configuration *)

Module Http.
Import Js.

(** A plain object used as a header record. A key can be present with the
    value [undefined]. *)
Abbreviation header_record := (gmap string (option string)).

(** [{ ...first, ...second }]: on a key of both, the later spread wins. *)
Definition spread (first second : header_record) : header_record := second ∪ first.

(** The [RequestInit] the callers pass: method, body and extra headers. *)
Record RequestInit : Type := {
  init_method : option string;
  init_body : option string;
  init_headers : option header_record;
}.

(** [...options.headers]: spreading [undefined] adds nothing. *)
Definition own_headers (options : RequestInit) : header_record :=
  default ∅ (init_headers options).

(** [{ ...options, headers: { ...options.headers, ...headers } }] *)
Definition with_headers (options : RequestInit) (hs : header_record) : RequestInit :=
  {| init_method := init_method options;
     init_body := init_body options;
     init_headers := Some (spread (own_headers options) hs) |}.

(** A [Response], as far as [request] reads it. *)
Record Response : Type := { status : N }.

(** [response.ok]: the status is in the range 200 to 299. *)
Definition ok (r : Response) : bool :=
  ((200 <=? status r) && (status r <=? 299))%N.

(** What one [await fetch(...)] followed by [await response.json()] can
    do: [fetch] rejects; [fetch] resolves and [json()] rejects; both
    resolve. *)
Inductive attempt_result : Type :=
| FetchRejected (e : js_error)
| JsonRejected (r : Response) (e : js_error)
| JsonParsed (r : Response) (body : json).

(** The network, seen from one call of [request]: the result of the
    [k]-th [fetch] (counted from 0) for the URL and init it is given. *)
Definition World : Type := nat → string → RequestInit → attempt_result.

(** The observable effects of [request]. [ENotify msg] is the call
    [notifyWebhook(msg)]. *)
Inductive event : Type :=
| EFetch (url : string) (init : RequestInit)
| EWait (ms : N)
| ENotify (msg : string).

(** The exports of [constants.js], read from the process environment:
    each is a string or undefined. *)
Record Config : Type := {
  ACCOUNT_EMAIL : option string;
  ACCOUNT_ID : option string;
  API_HOST : option string;
  API_KEY : option string;
  API_TOKEN : option string;
  API_TOKEN_1 : option string;
  API_TOKEN_2 : option string;
  API_TOKEN_3 : option string;
}.

(** [array.filter(Boolean)] on strings that may be undefined. *)
Fixpoint filter_Boolean (l : list (option string)) : list string :=
  match l with
  | [] => []
  | Some s :: l' => if truthy_string (Some s) then s :: filter_Boolean l' else filter_Boolean l'
  | None :: l' => filter_Boolean l'
  end.

End Http.

(** ** The retry loop shared by the two copies of [request] *)

Module Loop.
Import Js Http.

(** The local variables of [request]; [calls] counts the [fetch] calls
    made so far and selects the answer of the [World]. *)
Record state : Type := {
  attempts : nat;
  tokenIndex : index;
  response : option Response;
  data : option json;
  calls : nat;
}.

Definition maxAttempts : nat := 50.

Definition initial : state :=
  {| attempts := 0; tokenIndex := Idx 0; response := None; data := None; calls := 0 |}.

(** [(tokenIndex + 1) % tokens.length] *)
Definition rotate (len : nat) (i : index) : index :=
  match i with
  | Idx n => match len with 0 => NaN | S _ => Idx ((n + 1) mod len) end
  | NaN => NaN
  end.

(** How a call of [request] ends. *)
Inductive completion : Type :=
| Returned (body : json)
| ReturnedUndefined
| Thrown (e : js_error)
| ThrownTypeError.

(** One pass through the body of the [while] loop. *)
Inductive iteration : Type :=
| Continue (st : state) (evs : list event)
| Done (st : state) (evs : list event) (c : completion).

Definition events_of (it : iteration) : list event :=
  match it with
  | Continue _ evs | Done _ evs _ => evs
  end.

(** A run of [request]: the events in program order, the variables at
    the end, and the completion; [None] when the loop is still running
    after the given number of iterations. *)
Record run : Type := {
  final : state;
  trace : list event;
  outcome : option completion;
}.

Definition after (evs : list event) (r : run) : run :=
  {| final := final r; trace := evs ++ trace r; outcome := outcome r |}.

(** [while (attempts < maxAttempts) { body }  exit] *)
Fixpoint while_attempts (body : state → iteration) (exit : completion)
    (fuel : nat) (st : state) : run :=
  if (attempts st <? maxAttempts)%nat then
    match fuel with
    | 0 => {| final := st; trace := []; outcome := None |}
    | S fuel' =>
        match body st with
        | Continue st' evs => after evs (while_attempts body exit fuel' st')
        | Done st' evs c => {| final := st'; trace := evs; outcome := Some c |}
        end
    end
  else {| final := st; trace := []; outcome := Some exit |}.

(** The statements of the [try] block from [fetch] on, the same in both
    copies:
      response = await fetch(url, init);
      data = await response.json();
      if (!response.ok) throw new Error('Response not OK');
      return data;
    The result is the returned body or the error the [catch] receives. *)
Definition try_fetch (w : World) (url : string) (init : RequestInit) (st : state)
    : state * (json + js_error) :=
  match w (calls st) url init with
  | FetchRejected e =>
      ({| attempts := attempts st; tokenIndex := tokenIndex st;
          response := response st; data := data st; calls := S (calls st) |},
       inr e)
  | JsonRejected r e =>
      ({| attempts := attempts st; tokenIndex := tokenIndex st;
          response := Some r; data := data st; calls := S (calls st) |},
       inr e)
  | JsonParsed r body =>
      ({| attempts := attempts st; tokenIndex := tokenIndex st;
          response := Some r; data := Some body; calls := S (calls st) |},
       if ok r then inl body else inr (new_Error "Response not OK"))
  end.

End Loop.

(** ** [request] of [src/lib/helpers.js] *)

Module Helpers.
Import Js Http Loop.

Section request.
Context (cfg : Config) (w : World) (url : string) (options : RequestInit).

(** [[API_TOKEN_1, API_TOKEN_2, API_TOKEN_3, API_TOKEN].filter(Boolean)] *)
Definition tokens : list string :=
  filter_Boolean [API_TOKEN_1 cfg; API_TOKEN_2 cfg; API_TOKEN_3 cfg; API_TOKEN cfg].

(** The object literal [headers] of one attempt; [false && {...}] spreads
    nothing. *)
Definition headers (currentToken : option string) : header_record :=
  spread
    (<["Content-Type" := Some "application/json"]>
       {[ "Authorization" := Some ("Bearer " ++ template_string currentToken) ]})
    (if bool_decide (currentToken = API_KEY cfg)
     then <["X-Auth-Key" := API_KEY cfg]> {[ "X-Auth-Email" := ACCOUNT_EMAIL cfg ]}
     else ∅).

(** The body of the loop: the [try] block and its [catch]. *)
Definition body (st : state) : iteration :=
  let currentToken := at_index tokens (tokenIndex st) in
  let init := with_headers options (headers currentToken) in
  match try_fetch w url init st with
  | (st', inl body) => Done st' [EFetch url init] (Returned body)
  | (st', inr error) =>
      let tokenIndex' := rotate (length tokens) (tokenIndex st') in
      Continue
        {| attempts := S (attempts st'); tokenIndex := tokenIndex';
           response := response st'; data := data st'; calls := calls st' |}
        (EFetch url init :: if is_zero tokenIndex' then [EWait 5000%N] else [])
  end.

Definition request (fuel : nat) : run :=
  while_attempts body
    (Thrown (new_Error "All tokens failed after maximum attempts"))
    fuel initial.

End request.
End Helpers.

(** ** [request] of the second copy, [src/unnamed/part_000] *)

Module Part000.
Import Js Http Loop.

Section request.
Context (cfg : Config) (w : World) (url : string) (options : RequestInit).

(** [[API_TOKEN, API_TOKEN_1, API_TOKEN_2, API_TOKEN_3].filter(Boolean)] *)
Definition allTokens : list string :=
  filter_Boolean [API_TOKEN cfg; API_TOKEN_1 cfg; API_TOKEN_2 cfg; API_TOKEN_3 cfg].

Definition headers (currentToken : option string) : header_record :=
  <["Content-Type" := Some "application/json"]>
    {[ "Authorization" := Some ("Bearer " ++ template_string currentToken) ]}.

(** The message handed to [notifyWebhook]. *)
Definition notification (response : option Response) : string :=
  "An HTTP error has occurred ("
  ++ match response with
     | Some r => pretty (status r)
     | None => "unknown status"
     end
  ++ ") while making a web request. Please check the logs for further details.".

(** [data && 'errors' in data ? data.errors[0].message : data] *)
Definition described (data : option json) : evaluated (option json) :=
  match data with
  | Some d =>
      if truthy data then
        match has_errors d with
        | TypeError => TypeError
        | Value false => Value data
        | Value true =>
            match get_named "errors" data with
            | TypeError => TypeError
            | Value errors =>
                match get_first errors with
                | TypeError => TypeError
                | Value first => get_named "message" first
                end
            end
        end
      else Value data
  | None => Value data
  end.

(** The [throw new Error(`HTTP error! Status: ...`)] of the [catch]
    block: reading [response.status] with no response raises a TypeError
    instead. *)
Definition failure (response : option Response) (data : option json)
    (error : js_error) : completion :=
  match response with
  | None => ThrownTypeError
  | Some r =>
      match described data with
      | TypeError => ThrownTypeError
      | Value v =>
          Thrown (new_Error
            ("HTTP error! Status: " ++ pretty (status r) ++ " - "
             ++ template v ++ " - " ++ error_to_string error))
      end
  end.

(** The body of the loop: the [try] block and its [catch]. *)
Definition body (st : state) : iteration :=
  let currentToken := at_index allTokens (tokenIndex st) in
  if negb (truthy_string currentToken) then
    Continue
      {| attempts := attempts st;
         tokenIndex := rotate (length allTokens) (tokenIndex st);
         response := response st; data := data st; calls := calls st |}
      []
  else
    let init := with_headers options (headers currentToken) in
    match try_fetch w url init st with
    | (st', inl body) => Done st' [EFetch url init] (Returned body)
    | (st', inr error) =>
        let st'' :=
          {| attempts := S (attempts st');
             tokenIndex := rotate (length allTokens) (tokenIndex st');
             response := response st'; data := data st'; calls := calls st' |} in
        if (maxAttempts <=? attempts st'')%nat then
          Done st'' [EFetch url init; ENotify (notification (response st''))]
            (failure (response st'') (data st'') error)
        else Continue st'' [EFetch url init; EWait 5000%N]
    end.

Definition request (fuel : nat) : run :=
  while_attempts body ReturnedUndefined fuel initial.

End request.
End Part000.

(** ** The two copies side by side, and what a run is expected to do *)

Module Copies.
Import Js Http Loop.

(** The two copies of [request] in the repository. *)
Inductive copy : Type :=
| HelpersJs    (* src/lib/helpers.js *)
| Part000Js.   (* src/unnamed/part_000 *)

Definition tokens_of (c : copy) (cfg : Config) : list string :=
  match c with
  | HelpersJs => Helpers.tokens cfg
  | Part000Js => Part000.allTokens cfg
  end.

Definition headers_of (c : copy) (cfg : Config) : option string → header_record :=
  match c with
  | HelpersJs => Helpers.headers cfg
  | Part000Js => Part000.headers
  end.

Definition request_of (c : copy) : Config → World → string → RequestInit → nat → run :=
  match c with
  | HelpersJs => Helpers.request
  | Part000Js => Part000.request
  end.

(** The keys of the header record an attempt builds: a caller header
    under one of them is overridden. *)
Definition built_keys (c : copy) (cfg : Config) (currentToken : option string)
    : list string :=
  match c with
  | HelpersJs =>
      if bool_decide (currentToken = API_KEY cfg)
      then ["Authorization"; "Content-Type"; "X-Auth-Email"; "X-Auth-Key"]
      else ["Authorization"; "Content-Type"]
  | Part000Js => ["Authorization"; "Content-Type"]
  end.

(** The case in which the loop of [src/unnamed/part_000] only skips empty
    slots: there is no credential at all. *)
Definition spins (c : copy) (cfg : Config) : bool :=
  match c with
  | HelpersJs => false
  | Part000Js => bool_decide (Part000.allTokens cfg = [])
  end.

(** The body returned by a successful attempt: a response in the 2xx
    range whose body parsed. Any other result is a failed attempt. *)
Definition returned (r : attempt_result) : option json :=
  match r with
  | JsonParsed resp body => if ok resp then Some body else None
  | _ => None
  end.

(** The response variable after an attempt. *)
Definition observe (r : attempt_result) (seen : option Response) : option Response :=
  match r with
  | FetchRejected _ => seen
  | JsonRejected resp _ | JsonParsed resp _ => Some resp
  end.

(** The data variable after an attempt. *)
Definition observe_data (r : attempt_result) (seen : option json) : option json :=
  match r with
  | JsonParsed _ body => Some body
  | FetchRejected _ | JsonRejected _ _ => seen
  end.

(** The error the [catch] block receives from a failed attempt. *)
Definition caught (r : attempt_result) : js_error :=
  match r with
  | FetchRejected e | JsonRejected _ e => e
  | JsonParsed _ _ => new_Error "Response not OK"
  end.

(** The delays of a trace, in order. *)
Definition waits (t : list event) : list N :=
  omap (λ e, match e with EWait ms => Some ms | _ => None end) t.

(** The [fetch] calls of a trace, in order. *)
Definition fetches (t : list event) : list (string * RequestInit) :=
  omap (λ e, match e with EFetch u i => Some (u, i) | _ => None end) t.

(** The notifier calls of a trace, in order. *)
Definition notifications (t : list event) : list string :=
  omap (λ e, match e with ENotify m => Some m | _ => None end) t.

(** A call that ended by raising. *)
Definition raised (c : completion) : bool :=
  match c with
  | Thrown _ | ThrownTypeError => true
  | Returned _ | ReturnedUndefined => false
  end.

Section expected.
Context (c : copy) (cfg : Config) (w : World) (url : string) (options : RequestInit).

(** The token index after [k] rotations from 0. *)
Definition index_at (k : nat) : index :=
  Nat.iter k (rotate (length (tokens_of c cfg))) (Idx 0).

(** The variables when attempt [a] starts: [a] attempts have failed, [a]
    calls were made, and the index was rotated [a] times. *)
Definition at_attempt (a : nat) (st : state) : Prop :=
  attempts st = a ∧ calls st = a ∧ tokenIndex st = index_at a.

(** The init of attempt [k] (counted from 0), and the answer of the
    network to it. *)
Definition init_at (k : nat) : RequestInit :=
  with_headers options (headers_of c cfg (at_index (tokens_of c cfg) (index_at k))).

Definition result_at (k : nat) : attempt_result := w k url (init_at k).

(** Among the attempts [from], [from + 1], ..., [from + n - 1]: how many
    fail before the first one that succeeds, and the body it returns. *)
Fixpoint first_success (from n : nat) : option (nat * json) :=
  match n with
  | 0 => None
  | S n' =>
      match returned (result_at from) with
      | Some body => Some (0, body)
      | None => prod_map S id <$> first_success (S from) n'
      end
  end.

(** The response variable after the attempts [from], ..., [from + n - 1]. *)
Fixpoint last_response (from n : nat) (seen : option Response) : option Response :=
  match n with
  | 0 => seen
  | S n' => last_response (S from) n' (observe (result_at from) seen)
  end.

(** The data variable after the attempts [from], ..., [from + n - 1]. *)
Fixpoint last_data (from n : nat) (seen : option json) : option json :=
  match n with
  | 0 => seen
  | S n' => last_data (S from) n' (observe_data (result_at from) seen)
  end.

(** The number of attempts a complete run makes: up to the first success,
    or all of them. *)
Definition attempts_made : nat :=
  match first_success 0 maxAttempts with
  | Some (j, _) => S j
  | None => maxAttempts
  end.

(** What follows the [fetch] of the failed attempt [k] in
    [src/lib/helpers.js]: a delay when the rotation has wrapped to 0. *)
Definition backoff_on_wrap (k : nat) : list event :=
  if is_zero (index_at (S k)) then [EWait 5000%N] else [].

Definition failed_attempt_helpers (k : nat) : list event :=
  EFetch url (init_at k) :: backoff_on_wrap k.

(** A failed attempt of [src/unnamed/part_000] that is not the last one
    allowed: always followed by a delay. *)
Definition failed_attempt_part000 (k : nat) : list event :=
  [EFetch url (init_at k); EWait 5000%N].

End expected.
End Copies.

(** ** Configurations and networks used as examples *)

Module Scenarios.
Import Js Http Loop Copies.

Definition no_credentials : Config :=
  {| ACCOUNT_EMAIL := None; ACCOUNT_ID := Some "account"; API_HOST := Some "https://api.example";
     API_KEY := None; API_TOKEN := None; API_TOKEN_1 := None;
     API_TOKEN_2 := None; API_TOKEN_3 := None |}.

Definition one_token : Config :=
  {| ACCOUNT_EMAIL := None; ACCOUNT_ID := Some "account"; API_HOST := Some "https://api.example";
     API_KEY := None; API_TOKEN := Some "token-0"; API_TOKEN_1 := None;
     API_TOKEN_2 := None; API_TOKEN_3 := None |}.

Definition two_tokens : Config :=
  {| ACCOUNT_EMAIL := None; ACCOUNT_ID := Some "account"; API_HOST := Some "https://api.example";
     API_KEY := None; API_TOKEN := Some "token-0"; API_TOKEN_1 := Some "token-1";
     API_TOKEN_2 := None; API_TOKEN_3 := Some "" |}.

(** The global API key is also configured as the API token. *)
Definition key_as_token : Config :=
  {| ACCOUNT_EMAIL := Some "me@example.com"; ACCOUNT_ID := Some "account";
     API_HOST := Some "https://api.example";
     API_KEY := Some "global-key"; API_TOKEN := Some "global-key"; API_TOKEN_1 := None;
     API_TOKEN_2 := None; API_TOKEN_3 := None |}.

Definition lists_url : string := "https://api.example/accounts/account/gateway/lists".

Definition get : RequestInit :=
  {| init_method := Some "GET"; init_body := None; init_headers := None |}.

(** A caller that brings headers of its own. *)
Definition get_with_headers : RequestInit :=
  {| init_method := Some "GET"; init_body := None;
     init_headers :=
       Some (<["X-Auth-Key" := Some "mine"]>
               (<["Authorization" := Some "Basic abc"]>
                  {[ "Accept" := Some "text/plain" ]})) |}.

Definition forbidden_body : json :=
  JObj [("success", JBool false);
        ("errors", JArr [JObj [("code", JNum 9109); ("message", JStr "Invalid access token")]])].

Definition lists_body : json :=
  JObj [("success", JBool true); ("result", JArr [])].

(** Every request is answered 403. *)
Definition always_forbidden : World :=
  λ _ _ _, JsonParsed {| status := 403 |} forbidden_body.

(** Every request is answered 200. *)
Definition always_ok : World :=
  λ _ _ _, JsonParsed {| status := 200 |} lists_body.

(** The second request is answered 200, the others 403. *)
Definition second_ok : World :=
  λ k _ _, if decide (k = 1) then JsonParsed {| status := 200 |} lists_body
           else JsonParsed {| status := 403 |} forbidden_body.

End Scenarios.

(** ** [JSON.stringify] on the webhook payload *)

Module JsonText.

Definition dquote : ascii := ascii_of_nat 34.
Definition backslash : ascii := ascii_of_nat 92.

(** A hexadecimal digit, in lower case as [JSON.stringify] prints it. *)
Definition hex_digit (n : nat) : ascii :=
  match n with
  | 0 => "0" | 1 => "1" | 2 => "2" | 3 => "3" | 4 => "4" | 5 => "5" | 6 => "6"
  | 7 => "7" | 8 => "8" | 9 => "9" | 10 => "a" | 11 => "b" | 12 => "c"
  | 13 => "d" | 14 => "e" | _ => "f"
  end%char.

(** QuoteJSONString on one Latin-1 code unit: the quote, the backslash and
    the control characters are escaped, everything else is copied. *)
Definition quote_char (c : ascii) : string :=
  let n := nat_of_ascii c in
  if (n =? 34)%nat then String backslash (String dquote "")
  else if (n =? 92)%nat then String backslash (String backslash "")
  else if (n =? 8)%nat then String backslash "b"
  else if (n =? 9)%nat then String backslash "t"
  else if (n =? 10)%nat then String backslash "n"
  else if (n =? 12)%nat then String backslash "f"
  else if (n =? 13)%nat then String backslash "r"
  else if (n <? 32)%nat then
    String backslash
      (String "u" (String "0" (String "0"
        (String (hex_digit (n / 16)) (String (hex_digit (n mod 16)) "")))))
  else String c "".

Fixpoint quote_chars (s : string) : string :=
  match s with
  | EmptyString => EmptyString
  | String c s' => quote_char c ++ quote_chars s'
  end.

(** [JSON.stringify(s)] for a string. *)
Definition stringify_string (s : string) : string :=
  String dquote (quote_chars s ++ String dquote "").

(** [JSON.stringify({ content: message, body: message })] *)
Definition stringify_payload (message : string) : string :=
  "{" ++ stringify_string "content" ++ ":" ++ stringify_string message
  ++ "," ++ stringify_string "body" ++ ":" ++ stringify_string message ++ "}".

(** The value of a hexadecimal digit. *)
Definition hex_value (c : ascii) : option nat :=
  let n := nat_of_ascii c in
  if ((48 <=? n) && (n <=? 57))%nat then Some (n - 48)
  else if ((97 <=? n) && (n <=? 102))%nat then Some (n - 87)
  else None.

(** A reader for the text of a JSON string, from after its opening quote:
    the characters up to the closing quote, unescaped, and what follows
    the closing quote. It reads what [quote_chars] writes. *)
Fixpoint read_chars (s : string) : option (string * string) :=
  match s with
  | EmptyString => None
  | String c rest =>
      if (nat_of_ascii c =? 34)%nat then Some (EmptyString, rest)
      else if (nat_of_ascii c =? 92)%nat then
        match rest with
        | String e rest' =>
            let plain (d : nat) :=
              prod_map (String (ascii_of_nat d)) id <$> read_chars rest' in
            if (nat_of_ascii e =? 34)%nat then plain 34
            else if (nat_of_ascii e =? 92)%nat then plain 92
            else if (nat_of_ascii e =? 98)%nat then plain 8
            else if (nat_of_ascii e =? 116)%nat then plain 9
            else if (nat_of_ascii e =? 110)%nat then plain 10
            else if (nat_of_ascii e =? 102)%nat then plain 12
            else if (nat_of_ascii e =? 114)%nat then plain 13
            else if (nat_of_ascii e =? 117)%nat then
              match rest' with
              | String _ (String _ (String h (String l rest''))) =>
                  match hex_value h, hex_value l with
                  | Some hv, Some lv =>
                      prod_map (String (ascii_of_nat (16 * hv + lv))) id
                      <$> read_chars rest''
                  | _, _ => None
                  end
              | _ => None
              end
            else None
        | EmptyString => None
        end
      else prod_map (String c) id <$> read_chars rest
  end.

(** The [content] field read back from the text of a payload. *)
Definition read_content (text : string) : option string :=
  match JsString.strip_prefix ("{" ++ stringify_string "content" ++ ":") text with
  | Some (String _ rest) => fst <$> read_chars rest
  | _ => None
  end.

End JsonText.

(** ** The webhook notifier *)

Module Webhook.
Import Js Http Loop JsonText.

(** An [await]ed call either gives a value or raises. *)
Inductive result (A : Type) : Type :=
| Normal (a : A)
| Raised (e : js_error).
Arguments Normal {A} a.
Arguments Raised {A} e.

(** [try { block } catch (error) { handler }] *)
Definition try_catch {A} (block : result A) (handler : js_error → result A) : result A :=
  match block with
  | Normal a => Normal a
  | Raised error => handler error
  end.

(** What [await fetch(url, init)] does when the body is not read. *)
Inductive fetched : Type :=
| Rejected (e : js_error)
| Resolved (r : Response).

(** The webhook server, seen from one call. *)
Definition Net : Type := string → RequestInit → fetched.

(** The init of the POST: method, content type and the payload as JSON. *)
Definition post_init (message : string) : RequestInit :=
  {| init_method := Some "POST";
     init_body := Some (stringify_payload message);
     init_headers := Some {[ "Content-Type" := Some "application/json" ]} |}.

(** [sendMessageToWebhook(url, message)]: the events and the completion. *)
Definition sendMessageToWebhook (net : Net) (url message : string)
    : list event * result bool :=
  let init := post_init message in
  ([EFetch url init],
   try_catch
     match net url init with
     | Rejected e => Raised e
     | Resolved response =>
         if negb (ok response)
         then Raised (new_Error ("HTTP error! Status: " ++ pretty (status response)))
         else Normal true
     end
     (λ error, Normal false)).

(** [webhook_url.startsWith('http')] *)
Definition starts_with (p s : string) : bool :=
  match JsString.strip_prefix p s with
  | Some _ => true
  | None => false
  end.

(** [notifyWebhook(msg)], given the value of
    [process.env.DISCORD_WEBHOOK_URL]. *)
Definition notifyWebhook (DISCORD_WEBHOOK_URL : option string) (net : Net)
    (msg : string) : list event * result unit :=
  let webhook_url := DISCORD_WEBHOOK_URL in
  if truthy_string webhook_url
     && starts_with "http" (template_string webhook_url)
  then
    let sent := sendMessageToWebhook net (template_string webhook_url) ("CGPS: " ++ msg) in
    (sent.1,
     try_catch
       match sent.2 with
       | Normal _ => Normal tt
       | Raised e => Raised e
       end
       (λ e, Normal tt))
  else ([], Normal tt).

End Webhook.

(** ** [requestGateway] *)

Module Gateway.
Import Js Http Loop Copies.

(** [`${API_HOST}/accounts/${ACCOUNT_ID}/gateway${path}`] *)
Definition gateway_url (cfg : Config) (path : string) : string :=
  template_string (API_HOST cfg) ++ "/accounts/"
  ++ template_string (ACCOUNT_ID cfg) ++ "/gateway" ++ path.

(** [requestGateway(path, options)], the same in both copies, over the
    [request] of the copy. *)
Definition requestGateway (c : copy) (cfg : Config) (w : World) (path : string)
    (options : RequestInit) (fuel : nat) : run :=
  request_of c cfg w (gateway_url cfg path) options fuel.

(** What [request] may do, for a given caller: call [fetch] on the URL of
    the caller with its method and body, wait 5000 ms, and, in
    [src/unnamed/part_000] only, notify. *)
Definition allowed_event (c : copy) (url : string) (options : RequestInit)
    (e : event) : Prop :=
  match e with
  | EFetch u init =>
      u = url ∧ init_method init = init_method options
      ∧ init_body init = init_body options
  | EWait ms => ms = 5000%N
  | ENotify _ => c = Part000Js
  end.

End Gateway.

(** ** Entries made of plain characters *)

Module Plain.
Import JsString.

Fixpoint all_chars (p : ascii → bool) (s : string) : bool :=
  match s with
  | EmptyString => true
  | String c s' => p c && all_chars p s'
  end.

(** The characters the rules of [normalizeDomain] look for first: the
    vertical bar, the caret, the star and the at sign. *)
Definition is_marker (c : ascii) : bool :=
  let n := nat_of_ascii c in
  ((n =? 124) || (n =? 94) || (n =? 42) || (n =? 64))%nat.

(** Neither a space of the class [\s] nor a marker. *)
Definition plain_char (c : ascii) : bool := negb (is_space c) && negb (is_marker c).

(** A string no rule of [normalizeDomain] can match in: a bare domain is
    one. *)
Definition plain (s : string) : Prop := all_chars plain_char s = true.

(** A non-empty run of spaces. *)
Definition spaces (s : string) : Prop := s ≠ EmptyString ∧ all_chars is_space s = true.

End Plain.

(** * Properties *)

Local Open Scope nat_scope.
Local Open Scope list_scope.

(** ** The loop driver *)

Module LoopFacts.
Import Js Http Loop.

Section driver.
Context (body : state → iteration) (exit : completion).

Lemma while_attempts_exit fuel st :
  maxAttempts ≤ attempts st →
  while_attempts body exit fuel st
  = {| final := st; trace := []; outcome := Some exit |}.
Proof.
  intros Hmax. destruct fuel; simpl;
    destruct (Nat.ltb_spec (attempts st) maxAttempts); (done || lia).
Qed.

Lemma while_attempts_enter fuel st :
  attempts st < maxAttempts →
  while_attempts body exit (S fuel) st
  = match body st with
    | Continue st' evs => after evs (while_attempts body exit fuel st')
    | Done st' evs c => {| final := st'; trace := evs; outcome := Some c |}
    end.
Proof.
  intros Hlt. simpl.
  destruct (Nat.ltb_spec (attempts st) maxAttempts); (done || lia).
Qed.

(** A run that has ended is not changed by more fuel. *)
Lemma while_attempts_fuel fuel : ∀ fuel' st,
  fuel ≤ fuel' →
  outcome (while_attempts body exit fuel st) ≠ None →
  while_attempts body exit fuel' st = while_attempts body exit fuel st.
Proof.
  induction fuel as [|fuel IH]; intros fuel' st Hle Hended.
  - destruct (Nat.ltb_spec (attempts st) maxAttempts) as [Hlt|Hge].
    + exfalso. apply Hended. simpl.
      by destruct (Nat.ltb_spec (attempts st) maxAttempts); [|lia].
    + by rewrite !while_attempts_exit.
  - destruct fuel' as [|fuel']; [lia|].
    destruct (Nat.ltb_spec (attempts st) maxAttempts) as [Hlt|Hge].
    + rewrite !while_attempts_enter by done.
      rewrite while_attempts_enter in Hended by done.
      destruct (body st) as [st' evs|st' evs c]; [|done].
      f_equal. apply IH; [lia|]. by destruct (while_attempts body exit fuel st').
    + by rewrite !while_attempts_exit.
Qed.

End driver.

(** Rotating a valid index of a non-empty list. *)
Lemma rotate_Idx len n : len ≠ 0 → rotate len (Idx n) = Idx ((n + 1) mod len).
Proof. by destruct len. Qed.

Lemma iter_rotate k : ∀ len n,
  n < len → Nat.iter k (rotate len) (Idx n) = Idx ((n + k) mod len).
Proof.
  induction k as [|k IH]; intros len n Hlt; simpl.
  - by rewrite Nat.add_0_r, Nat.mod_small.
  - rewrite IH by done. rewrite rotate_Idx by lia.
    f_equal. rewrite Nat.Div0.add_mod_idemp_l. f_equal. lia.
Qed.

(** With no token the first rotation gives NaN, and NaN stays. *)
Lemma rotate_empty i : rotate 0 i = NaN.
Proof. by destruct i. Qed.

Lemma rotate_NaN len : rotate len NaN = NaN.
Proof. done. Qed.

Lemma at_index_empty {A} (i : index) : at_index (@nil A) i = None.
Proof. by destruct i as [[|n]|]. Qed.

(** [filter(Boolean)] keeps non-empty strings only. *)
Lemma filter_Boolean_truthy l :
  Forall (λ s, truthy_string (Some s) = true) (filter_Boolean l).
Proof.
  induction l as [|[s|] l IH]; cbn [filter_Boolean]; [by constructor| |done].
  destruct (truthy_string (Some s)) eqn:Hs; [|done].
  by constructor.
Qed.

End LoopFacts.

(** ** One pass through the loop body *)

Module BodyFacts.
Import Js Http Loop Copies LoopFacts.

Section body.
Context (cfg : Config) (w : World) (url : string) (options : RequestInit).

Lemma at_attempt_initial c : at_attempt c cfg 0 initial.
Proof. done. Qed.

Lemma index_at_S c k :
  index_at c cfg (S k) = rotate (length (tokens_of c cfg)) (index_at c cfg k).
Proof. done. Qed.

Lemma index_at_nonempty c k :
  tokens_of c cfg ≠ [] →
  index_at c cfg k = Idx (k mod length (tokens_of c cfg)).
Proof.
  intros Hne. unfold index_at. rewrite iter_rotate; [done|].
  destruct (tokens_of c cfg); [done|simpl; lia].
Qed.

Lemma index_at_empty c k :
  tokens_of c cfg = [] → index_at c cfg (S k) = NaN.
Proof. intros Hnil. rewrite index_at_S, Hnil. apply rotate_empty. Qed.

(** With a non-empty credential set the current token is always a
    configured, non-empty one. *)
Lemma current_token c k :
  tokens_of c cfg ≠ [] →
  ∃ tok, at_index (tokens_of c cfg) (index_at c cfg k) = Some tok
         ∧ tok ∈ tokens_of c cfg
         ∧ truthy_string (Some tok) = true.
Proof.
  intros Hne. rewrite index_at_nonempty by done. simpl.
  destruct (lookup_lt_is_Some_2 (tokens_of c cfg) (k mod length (tokens_of c cfg)))
    as [tok Htok].
  { apply Nat.mod_upper_bound. by destruct (tokens_of c cfg). }
  exists tok. split; [done|]. split; [by eapply list_elem_of_lookup_2|].
  assert (Forall (λ s, truthy_string (Some s) = true) (tokens_of c cfg)) as Hall
    by (destruct c; apply filter_Boolean_truthy).
  by eapply Forall_lookup_1 in Hall.
Qed.

(** *** [src/lib/helpers.js] *)

Lemma helpers_body_returned a st body :
  at_attempt HelpersJs cfg a st →
  returned (result_at HelpersJs cfg w url options a) = Some body →
  ∃ st', Helpers.body cfg w url options st
         = Done st' [EFetch url (init_at HelpersJs cfg options a)] (Returned body)
       ∧ attempts st' = a ∧ tokenIndex st' = index_at HelpersJs cfg a
       ∧ calls st' = S a.
Proof.
  intros (Hatt & Hcalls & Hidx) Hret.
  unfold Helpers.body, try_fetch. rewrite Hidx, Hcalls.
  unfold result_at, init_at in Hret. simpl in Hret.
  destruct (w a url _) as [e|r e|r b]; simpl in Hret; try done.
  destruct (ok r); [|done]. simplify_eq. eexists. split; [done|]. by simpl.
Qed.

Lemma helpers_body_failed a st :
  at_attempt HelpersJs cfg a st →
  returned (result_at HelpersJs cfg w url options a) = None →
  ∃ st', Helpers.body cfg w url options st
         = Continue st' (failed_attempt_helpers HelpersJs cfg url options a)
       ∧ at_attempt HelpersJs cfg (S a) st'.
Proof.
  intros (Hatt & Hcalls & Hidx) Hret.
  unfold Helpers.body, try_fetch. rewrite Hidx, Hcalls.
  unfold result_at, init_at in Hret. simpl in Hret.
  unfold failed_attempt_helpers, backoff_on_wrap. rewrite index_at_S.
  destruct (w a url _) as [e|r e|r b]; simpl in Hret |- *.
  - eexists. split; [done|]. repeat split; simpl; congruence.
  - eexists. split; [done|]. repeat split; simpl; congruence.
  - destruct (ok r); [done|].
    eexists. split; [done|]. repeat split; simpl; congruence.
Qed.

(** *** [src/unnamed/part_000] *)

Lemma part000_body_returned a st body :
  tokens_of Part000Js cfg ≠ [] →
  at_attempt Part000Js cfg a st →
  returned (result_at Part000Js cfg w url options a) = Some body →
  ∃ st', Part000.body cfg w url options st
         = Done st' [EFetch url (init_at Part000Js cfg options a)] (Returned body)
       ∧ attempts st' = a ∧ tokenIndex st' = index_at Part000Js cfg a
       ∧ calls st' = S a.
Proof.
  intros Hne (Hatt & Hcalls & Hidx) Hret.
  destruct (current_token Part000Js a Hne) as (tok & Htok & _ & Htruthy).
  unfold result_at, init_at in Hret |- *.
  change (tokens_of Part000Js cfg) with (Part000.allTokens cfg) in *.
  change (headers_of Part000Js cfg) with Part000.headers in *.
  unfold Part000.body, try_fetch. rewrite Hidx, Hcalls, Htok, Htruthy.
  cbn [negb]. rewrite Htok in Hret.
  destruct (w a url _) as [e|r e|r b]; cbn [returned] in Hret; try done.
  destruct (ok r); [|done]. simplify_eq. eexists. split; [done|]. done.
Qed.

(** The shape of the goals about a failed attempt of this copy. *)
Local Ltac part000_catch Hatt :=
  unfold maxAttempts in *; cbn [attempts]; rewrite Hatt;
  match goal with
  | |- context [(?x <=? ?y)] => destruct (Nat.leb_spec x y); [try lia|try lia]
  end;
  eexists; (split; [reflexivity|]); done.

Lemma part000_body_failed a st :
  tokens_of Part000Js cfg ≠ [] →
  at_attempt Part000Js cfg a st →
  returned (result_at Part000Js cfg w url options a) = None →
  S a < maxAttempts →
  ∃ st', Part000.body cfg w url options st
         = Continue st' (failed_attempt_part000 Part000Js cfg url options a)
       ∧ at_attempt Part000Js cfg (S a) st'
       ∧ response st' = observe (result_at Part000Js cfg w url options a) (response st)
       ∧ data st' = observe_data (result_at Part000Js cfg w url options a) (data st).
Proof.
  intros Hne (Hatt & Hcalls & Hidx) Hret Hlt.
  destruct (current_token Part000Js a Hne) as (tok & Htok & _ & Htruthy).
  unfold failed_attempt_part000, at_attempt. rewrite index_at_S.
  unfold result_at, init_at in Hret |- *.
  change (tokens_of Part000Js cfg) with (Part000.allTokens cfg) in *.
  change (headers_of Part000Js cfg) with Part000.headers in *.
  unfold Part000.body, try_fetch. rewrite Hidx, Hcalls, Htok, Htruthy.
  cbn [negb]. rewrite Htok in Hret.
  destruct (w a url _) as [e|r e|r b]; cbn [returned observe observe_data] in Hret |- *.
  - part000_catch Hatt.
  - part000_catch Hatt.
  - destruct (ok r); [done|]. part000_catch Hatt.
Qed.

Lemma part000_body_exhausted a st :
  tokens_of Part000Js cfg ≠ [] →
  at_attempt Part000Js cfg a st →
  returned (result_at Part000Js cfg w url options a) = None →
  maxAttempts ≤ S a →
  let r := result_at Part000Js cfg w url options a in
  ∃ st', Part000.body cfg w url options st
         = Done st'
             [EFetch url (init_at Part000Js cfg options a);
              ENotify (Part000.notification (observe r (response st)))]
             (Part000.failure (observe r (response st))
                (observe_data r (data st)) (caught r))
       ∧ attempts st' = S a ∧ tokenIndex st' = index_at Part000Js cfg (S a)
       ∧ calls st' = S a.
Proof.
  intros Hne (Hatt & Hcalls & Hidx) Hret Hge r. subst r.
  destruct (current_token Part000Js a Hne) as (tok & Htok & _ & Htruthy).
  rewrite index_at_S.
  unfold result_at, init_at in Hret |- *.
  change (tokens_of Part000Js cfg) with (Part000.allTokens cfg) in *.
  change (headers_of Part000Js cfg) with Part000.headers in *.
  unfold Part000.body, try_fetch. rewrite Hidx, Hcalls, Htok, Htruthy.
  cbn [negb]. rewrite Htok in Hret.
  destruct (w a url _) as [e|r e|r b];
    cbn [returned observe observe_data caught] in Hret |- *.
  - part000_catch Hatt.
  - part000_catch Hatt.
  - destruct (ok r); [done|]. part000_catch Hatt.
Qed.

(** With no token the body only rotates the index, to NaN. *)
Lemma part000_body_skip st :
  tokens_of Part000Js cfg = [] →
  Part000.body cfg w url options st
  = Continue
      {| attempts := attempts st; tokenIndex := NaN;
         response := response st; data := data st; calls := calls st |} [].
Proof.
  cbn [tokens_of]. intros Hnil. unfold Part000.body.
  rewrite Hnil, at_index_empty. cbn [truthy_string negb length].
  by rewrite rotate_empty.
Qed.

End body.
End BodyFacts.

(** ** The events of a run, by kind *)

Module TraceFacts.
Import Js Http Loop Copies LoopFacts BodyFacts.

Lemma is_zero_Idx m : is_zero (Idx m) = (m =? 0).
Proof. by destruct m. Qed.

Lemma div_succ f N :
  N ≠ 0 → S f / N = f / N + (if S f mod N =? 0 then 1 else 0).
Proof.
  intros HN.
  pose proof (Nat.div_mod_eq f N) as Hf.
  pose proof (Nat.div_mod_eq (S f) N) as HSf.
  pose proof (Nat.mod_upper_bound f N HN) as Hr.
  pose proof (Nat.mod_upper_bound (S f) N HN) as HSr.
  destruct (Nat.eqb_spec (S f mod N) 0) as [Hz|Hnz]; nia.
Qed.

Section kinds.
Context (c : copy) (cfg : Config) (url : string) (options : RequestInit).

Local Abbreviation N := (length (tokens_of c cfg)).

(** The delay of [src/lib/helpers.js] follows the failed attempt [k]
    exactly when [k + 1] is a multiple of the number of tokens. *)
Lemma backoff_on_wrap_mod k :
  tokens_of c cfg ≠ [] →
  backoff_on_wrap c cfg k = if S k mod N =? 0 then [EWait 5000%N] else [].
Proof.
  intros Hne. unfold backoff_on_wrap.
  by rewrite index_at_nonempty, is_zero_Idx.
Qed.

Lemma fetches_failed_helpers a j :
  fetches (flat_map (failed_attempt_helpers c cfg url options) (seq a j))
  = (λ k, (url, init_at c cfg options k)) <$> seq a j.
Proof.
  revert a. induction j as [|j IH]; intros a; [done|].
  cbn [seq flat_map fmap list_fmap]. unfold fetches in *.
  rewrite omap_app, IH. unfold failed_attempt_helpers, backoff_on_wrap.
  by destruct (is_zero _).
Qed.

Lemma fetches_failed_part000 a j :
  fetches (flat_map (failed_attempt_part000 c cfg url options) (seq a j))
  = (λ k, (url, init_at c cfg options k)) <$> seq a j.
Proof.
  revert a. induction j as [|j IH]; intros a; [done|].
  cbn [seq flat_map fmap list_fmap]. unfold fetches in *.
  by rewrite omap_app, IH.
Qed.

Lemma notifications_failed_helpers a j :
  notifications (flat_map (failed_attempt_helpers c cfg url options) (seq a j)) = [].
Proof.
  revert a. induction j as [|j IH]; intros a; [done|].
  cbn [seq flat_map]. unfold notifications in *.
  rewrite omap_app, IH. unfold failed_attempt_helpers, backoff_on_wrap.
  by destruct (is_zero _).
Qed.

Lemma notifications_failed_part000 a j :
  notifications (flat_map (failed_attempt_part000 c cfg url options) (seq a j)) = [].
Proof.
  revert a. induction j as [|j IH]; intros a; [done|].
  cbn [seq flat_map]. unfold notifications in *.
  by rewrite omap_app, IH.
Qed.

(** One delay per full cycle: [f] failed attempts of
    [src/lib/helpers.js] are followed by [f / N] delays. *)
Lemma waits_failed_helpers f :
  tokens_of c cfg ≠ [] →
  waits (flat_map (failed_attempt_helpers c cfg url options) (seq 0 f))
  = replicate (f / N) 5000%N.
Proof.
  intros Hne. assert (N ≠ 0) as HN by (by destruct (tokens_of c cfg)).
  induction f as [|f IH].
  - by rewrite Nat.Div0.div_0_l.
  - rewrite seq_S, flat_map_app. unfold waits in *. rewrite omap_app, IH.
    cbn [flat_map plus]. rewrite app_nil_r.
    unfold failed_attempt_helpers. cbn [omap].
    rewrite backoff_on_wrap_mod, div_succ by done.
    destruct (S f mod N =? 0); cbn [omap].
    + by rewrite replicate_add.
    + by rewrite app_nil_r, Nat.add_0_r.
Qed.

(** One delay per failed attempt in [src/unnamed/part_000]. *)
Lemma waits_failed_part000 a j :
  waits (flat_map (failed_attempt_part000 c cfg url options) (seq a j))
  = replicate j 5000%N.
Proof.
  revert a. induction j as [|j IH]; intros a; [done|].
  cbn [seq flat_map replicate]. unfold waits in *.
  rewrite omap_app, IH. done.
Qed.

End kinds.
End TraceFacts.

(** ** Whole runs *)

Module RunFacts.
Import Js Http Loop Copies LoopFacts BodyFacts.

Section runs.
Context (cfg : Config) (w : World) (url : string) (options : RequestInit).

Local Abbreviation exit_helpers :=
  (Thrown (new_Error "All tokens failed after maximum attempts")).

(** The loop of [src/lib/helpers.js], started at attempt [a] with [n]
    attempts left. *)
Lemma helpers_loop n : ∀ a st,
  a + n = maxAttempts →
  at_attempt HelpersJs cfg a st →
  let r := while_attempts (Helpers.body cfg w url options) exit_helpers n st in
  match first_success HelpersJs cfg w url options a n with
  | Some (j, body) =>
      trace r = flat_map (failed_attempt_helpers HelpersJs cfg url options) (seq a j)
                ++ [EFetch url (init_at HelpersJs cfg options (a + j))]
      ∧ outcome r = Some (Returned body)
      ∧ attempts (final r) = a + j
      ∧ tokenIndex (final r) = index_at HelpersJs cfg (a + j)
      ∧ calls (final r) = S (a + j)
  | None =>
      trace r = flat_map (failed_attempt_helpers HelpersJs cfg url options) (seq a n)
      ∧ outcome r = Some exit_helpers
      ∧ attempts (final r) = maxAttempts
      ∧ tokenIndex (final r) = index_at HelpersJs cfg maxAttempts
      ∧ calls (final r) = maxAttempts
  end.
Proof.
  induction n as [|n IH]; intros a st Hsum Hat r; subst r.
  - assert (a = maxAttempts) as -> by lia.
    destruct Hat as (Hatt & Hcalls & Hidx).
    rewrite while_attempts_exit by lia. cbn [first_success seq flat_map].
    by cbn [final trace outcome].
  - rewrite while_attempts_enter by (destruct Hat as (-> & _); lia).
    cbn [first_success].
    destruct (returned (result_at HelpersJs cfg w url options a)) as [body|] eqn:Hret.
    + destruct (helpers_body_returned cfg w url options a st body Hat Hret)
        as (st' & -> & Hatt' & Hidx' & Hcalls').
      rewrite Nat.add_0_r. by cbn.
    + destruct (helpers_body_failed cfg w url options a st Hat Hret)
        as (st' & -> & Hat').
      specialize (IH (S a) st' ltac:(lia) Hat').
      destruct (first_success HelpersJs cfg w url options (S a) n) as [[j body]|];
        cbn [fmap option_fmap option_map prod_map fst snd id];
        cbn [after final trace outcome seq flat_map];
        destruct IH as (-> & -> & -> & -> & ->).
      * rewrite <- app_assoc, Nat.add_succ_r. done.
      * done.
Qed.

(** The loop of [src/unnamed/part_000] with a non-empty credential set,
    started at attempt [a] with [S n] attempts left. *)
Lemma part000_loop n : ∀ a st,
  tokens_of Part000Js cfg ≠ [] →
  a + S n = maxAttempts →
  at_attempt Part000Js cfg a st →
  let r := while_attempts (Part000.body cfg w url options) ReturnedUndefined (S n) st in
  match first_success Part000Js cfg w url options a (S n) with
  | Some (j, body) =>
      trace r = flat_map (failed_attempt_part000 Part000Js cfg url options) (seq a j)
                ++ [EFetch url (init_at Part000Js cfg options (a + j))]
      ∧ outcome r = Some (Returned body)
      ∧ attempts (final r) = a + j
      ∧ tokenIndex (final r) = index_at Part000Js cfg (a + j)
      ∧ calls (final r) = S (a + j)
  | None =>
      let seen := last_response Part000Js cfg w url options a (S n) (response st) in
      let seen_data := last_data Part000Js cfg w url options a (S n) (data st) in
      trace r = flat_map (failed_attempt_part000 Part000Js cfg url options) (seq a n)
                ++ [EFetch url (init_at Part000Js cfg options (a + n));
                    ENotify (Part000.notification seen)]
      ∧ outcome r = Some (Part000.failure seen seen_data
                            (caught (result_at Part000Js cfg w url options (a + n))))
      ∧ attempts (final r) = maxAttempts
      ∧ tokenIndex (final r) = index_at Part000Js cfg maxAttempts
      ∧ calls (final r) = maxAttempts
  end.
Proof.
  induction n as [|n IH]; intros a st Hne Hsum Hat r; subst r.
  - rewrite while_attempts_enter by (destruct Hat as (-> & _); lia).
    cbn [first_success].
    destruct (returned (result_at Part000Js cfg w url options a)) as [body|] eqn:Hret.
    + destruct (part000_body_returned cfg w url options a st body Hne Hat Hret)
        as (st' & -> & Hatt' & Hidx' & Hcalls').
      rewrite Nat.add_0_r. by cbn.
    + destruct (part000_body_exhausted cfg w url options a st Hne Hat Hret ltac:(lia))
        as (st' & -> & Hatt' & Hidx' & Hcalls').
      cbn [fmap option_fmap option_map last_response last_data seq flat_map].
      rewrite Nat.add_0_r. cbn [final trace outcome app].
      assert (S a = maxAttempts) as <- by lia. done.
  - rewrite while_attempts_enter by (destruct Hat as (-> & _); lia).
    cbn [first_success].
    destruct (returned (result_at Part000Js cfg w url options a)) as [body|] eqn:Hret.
    + destruct (part000_body_returned cfg w url options a st body Hne Hat Hret)
        as (st' & -> & Hatt' & Hidx' & Hcalls').
      rewrite Nat.add_0_r. by cbn.
    + destruct (part000_body_failed cfg w url options a st Hne Hat Hret ltac:(lia))
        as (st' & -> & Hat' & Hresp & Hdata).
      specialize (IH (S a) st' Hne ltac:(lia) Hat').
      cbn [first_success] in IH.
      destruct (returned (result_at Part000Js cfg w url options (S a))) as [body|].
      * cbn [fmap option_fmap option_map prod_map fst snd id].
        cbn [after final trace outcome seq flat_map].
        destruct IH as (-> & -> & -> & -> & ->).
        rewrite Nat.add_0_r, Nat.add_1_r. done.
      * destruct (first_success Part000Js cfg w url options (S (S a)) n)
          as [[j body]|];
          cbn [fmap option_fmap option_map prod_map fst snd id] in IH |- *;
          cbn [after final trace outcome];
          destruct IH as (-> & -> & -> & -> & ->).
        -- cbn [seq flat_map]. rewrite <- app_assoc, !Nat.add_succ_r. done.
        -- cbn [seq flat_map last_response last_data].
           rewrite <- app_assoc, !Nat.add_succ_r, Hresp, Hdata. done.
Qed.

(** Every attempt among [from], ..., [from + n - 1] fails. *)
Lemma first_success_None c from n :
  first_success c cfg w url options from n = None
  ↔ ∀ k, from ≤ k < from + n → returned (result_at c cfg w url options k) = None.
Proof.
  revert from. induction n as [|n IH]; intros from; cbn [first_success].
  - split; [intros _ k ?; lia|done].
  - destruct (returned (result_at c cfg w url options from)) as [body|] eqn:Hret.
    + split; [done|]. intros Hall. rewrite Hall in Hret by lia. done.
    + rewrite fmap_None, IH. split.
      * intros Hall k Hk. destruct (decide (k = from)) as [->|]; [done|].
        apply Hall. lia.
      * intros Hall k Hk. apply Hall. lia.
Qed.

(** Attempt [from + j] is the first to succeed. *)
Lemma first_success_Some c from n j body :
  first_success c cfg w url options from n = Some (j, body)
  ↔ j < n
    ∧ (∀ k, from ≤ k < from + j → returned (result_at c cfg w url options k) = None)
    ∧ returned (result_at c cfg w url options (from + j)) = Some body.
Proof.
  revert from j. induction n as [|n IH]; intros from j; cbn [first_success].
  - split; [done|]. intros (? & _). lia.
  - destruct (returned (result_at c cfg w url options from)) as [body'|] eqn:Hret.
    + split.
      * intros [= <- <-]. rewrite Nat.add_0_r.
        split; [lia|]. split; [intros k ?; lia|done].
      * intros (Hj & Hfail & Hok). destruct j as [|j].
        -- rewrite Nat.add_0_r in Hok. congruence.
        -- rewrite Hfail in Hret by lia. done.
    + rewrite fmap_Some. split.
      * intros ([j' body''] & Hfirst & [= -> ->]).
        apply IH in Hfirst as (Hj & Hfail & Hok).
        rewrite Nat.add_succ_r. split; [lia|]. split; [|done].
        intros k Hk. destruct (decide (k = from)) as [->|]; [done|].
        apply Hfail. lia.
      * intros (Hj & Hfail & Hok). destruct j as [|j].
        -- rewrite Nat.add_0_r in Hok. congruence.
        -- exists (j, body). split; [|done]. apply IH.
           rewrite Nat.add_succ_r in Hok. split; [lia|]. split; [|done].
           intros k Hk. apply Hfail. lia.
Qed.

(** A whole call of [request] in [src/lib/helpers.js]. *)
Lemma helpers_request fuel :
  maxAttempts ≤ fuel →
  let r := Helpers.request cfg w url options fuel in
  match first_success HelpersJs cfg w url options 0 maxAttempts with
  | Some (j, body) =>
      trace r = flat_map (failed_attempt_helpers HelpersJs cfg url options) (seq 0 j)
                ++ [EFetch url (init_at HelpersJs cfg options j)]
      ∧ outcome r = Some (Returned body)
      ∧ attempts (final r) = j
      ∧ tokenIndex (final r) = index_at HelpersJs cfg j
      ∧ calls (final r) = S j
  | None =>
      trace r = flat_map (failed_attempt_helpers HelpersJs cfg url options)
                  (seq 0 maxAttempts)
      ∧ outcome r = Some exit_helpers
      ∧ attempts (final r) = maxAttempts
      ∧ tokenIndex (final r) = index_at HelpersJs cfg maxAttempts
      ∧ calls (final r) = maxAttempts
  end.
Proof.
  intros Hfuel r. subst r. unfold Helpers.request.
  pose proof (helpers_loop maxAttempts 0 initial eq_refl
                (at_attempt_initial cfg HelpersJs)) as Hloop.
  cbv zeta in Hloop.
  rewrite (while_attempts_fuel _ _ maxAttempts fuel initial Hfuel).
  - done.
  - destruct (first_success HelpersJs cfg w url options 0 maxAttempts) as [[j body]|];
      destruct Hloop as (_ & -> & _); done.
Qed.

(** A whole call of [request] in [src/unnamed/part_000], with a non-empty
    credential set. *)
Lemma part000_request fuel :
  maxAttempts ≤ fuel →
  tokens_of Part000Js cfg ≠ [] →
  let r := Part000.request cfg w url options fuel in
  match first_success Part000Js cfg w url options 0 maxAttempts with
  | Some (j, body) =>
      trace r = flat_map (failed_attempt_part000 Part000Js cfg url options) (seq 0 j)
                ++ [EFetch url (init_at Part000Js cfg options j)]
      ∧ outcome r = Some (Returned body)
      ∧ attempts (final r) = j
      ∧ tokenIndex (final r) = index_at Part000Js cfg j
      ∧ calls (final r) = S j
  | None =>
      let seen := last_response Part000Js cfg w url options 0 maxAttempts None in
      let seen_data := last_data Part000Js cfg w url options 0 maxAttempts None in
      trace r = flat_map (failed_attempt_part000 Part000Js cfg url options)
                  (seq 0 (maxAttempts - 1))
                ++ [EFetch url (init_at Part000Js cfg options (maxAttempts - 1));
                    ENotify (Part000.notification seen)]
      ∧ outcome r = Some (Part000.failure seen seen_data
                            (caught (result_at Part000Js cfg w url options
                                       (maxAttempts - 1))))
      ∧ attempts (final r) = maxAttempts
      ∧ tokenIndex (final r) = index_at Part000Js cfg maxAttempts
      ∧ calls (final r) = maxAttempts
  end.
Proof.
  intros Hfuel Hne r. subst r. unfold Part000.request.
  pose proof (part000_loop (maxAttempts - 1) 0 initial Hne eq_refl
                (at_attempt_initial cfg Part000Js)) as Hloop.
  cbv zeta in Hloop.
  change (S (maxAttempts - 1)) with maxAttempts in Hloop.
  change (0 + (maxAttempts - 1)) with (maxAttempts - 1) in Hloop.
  rewrite (while_attempts_fuel _ _ maxAttempts fuel initial Hfuel).
  - done.
  - destruct (first_success Part000Js cfg w url options 0 maxAttempts) as [[j body]|];
      destruct Hloop as (_ & -> & _); done.
Qed.

(** [src/unnamed/part_000] with no credential: the loop spins on the
    empty slot, makes no call and never ends. *)
Lemma part000_no_credentials_loop fuel : ∀ st,
  tokens_of Part000Js cfg = [] →
  attempts st < maxAttempts →
  let r := while_attempts (Part000.body cfg w url options) ReturnedUndefined fuel st in
  trace r = [] ∧ outcome r = None
  ∧ attempts (final r) = attempts st ∧ calls (final r) = calls st.
Proof.
  induction fuel as [|fuel IH]; intros st Hnil Hlt r; subst r.
  - cbn [while_attempts].
    by destruct (Nat.ltb_spec (attempts st) maxAttempts); [|lia].
  - rewrite while_attempts_enter, part000_body_skip by done.
    cbn [after app final trace outcome].
    match goal with
    | |- context [while_attempts _ _ fuel ?st'] =>
        destruct (IH st' Hnil Hlt) as (-> & -> & -> & ->)
    end.
    done.
Qed.

Lemma part000_no_credentials fuel :
  tokens_of Part000Js cfg = [] →
  let r := Part000.request cfg w url options fuel in
  trace r = [] ∧ outcome r = None ∧ attempts (final r) = 0 ∧ calls (final r) = 0.
Proof.
  intros Hnil. apply part000_no_credentials_loop; [done|].
  cbn [attempts initial]. unfold maxAttempts. lia.
Qed.

(** The calls of a complete run, for either copy. *)
Lemma request_fetches c fuel :
  maxAttempts ≤ fuel →
  (c = Part000Js → tokens_of c cfg ≠ []) →
  fetches (trace (request_of c cfg w url options fuel))
  = (λ k, (url, init_at c cfg options k)) <$> seq 0 (attempts_made c cfg w url options).
Proof.
  intros Hfuel Hne. unfold attempts_made. destruct c; cbn [request_of].
  - pose proof (helpers_request fuel Hfuel) as Hrun. cbv zeta in Hrun.
    destruct (first_success HelpersJs cfg w url options 0 maxAttempts) as [[j body]|];
      destruct Hrun as (-> & _); cbv iota beta.
    + unfold fetches. rewrite omap_app. fold fetches.
      rewrite TraceFacts.fetches_failed_helpers, seq_S, fmap_app. done.
    + apply TraceFacts.fetches_failed_helpers.
  - pose proof (part000_request fuel Hfuel (Hne eq_refl)) as Hrun. cbv zeta in Hrun.
    destruct (first_success Part000Js cfg w url options 0 maxAttempts) as [[j body]|];
      destruct Hrun as (-> & _); cbv iota beta.
    + unfold fetches. rewrite omap_app. fold fetches.
      rewrite TraceFacts.fetches_failed_part000, seq_S, fmap_app. done.
    + unfold fetches. rewrite omap_app. fold fetches.
      rewrite TraceFacts.fetches_failed_part000.
      pose proof (seq_S (maxAttempts - 1) 0) as Hseq.
      change (S (maxAttempts - 1)) with maxAttempts in Hseq.
      rewrite Hseq, fmap_app. done.
Qed.

End runs.
End RunFacts.

(** ** The header record of an attempt *)

Module HeaderFacts.
Import Js Http Loop Copies.

Lemma lookup_spread (first second : header_record) key :
  spread first second !! key
  = match second !! key with
    | Some v => Some v
    | None => first !! key
    end.
Proof.
  unfold spread. rewrite lookup_union.
  by destruct (second !! key), (first !! key).
Qed.

Lemma part000_headers_lookup tok key :
  Part000.headers tok !! key
  = if decide (key = "Content-Type") then Some (Some "application/json")
    else if decide (key = "Authorization")
         then Some (Some ("Bearer " ++ template_string tok)%string)
         else None.
Proof.
  unfold Part000.headers.
  destruct (decide (key = "Content-Type")) as [->|]; [by rewrite lookup_insert_eq|].
  rewrite lookup_insert_ne by done.
  destruct (decide (key = "Authorization")) as [->|]; [by rewrite lookup_singleton_eq|].
  by rewrite lookup_singleton_ne.
Qed.

Lemma helpers_headers_lookup cfg tok key :
  Helpers.headers cfg tok !! key
  = if bool_decide (tok = API_KEY cfg) && bool_decide (key = "X-Auth-Key")
    then Some (API_KEY cfg)
    else if bool_decide (tok = API_KEY cfg) && bool_decide (key = "X-Auth-Email")
    then Some (ACCOUNT_EMAIL cfg)
    else Part000.headers tok !! key.
Proof.
  unfold Helpers.headers. rewrite lookup_spread.
  fold (Part000.headers tok).
  destruct (bool_decide (tok = API_KEY cfg)); cbn [andb]; [|by rewrite lookup_empty].
  case_bool_decide as Hkey; [subst key; by rewrite lookup_insert_eq|].
  rewrite lookup_insert_ne by done.
  case_bool_decide as Hemail; [subst key; by rewrite lookup_singleton_eq|].
  by rewrite lookup_singleton_ne.
Qed.

(** What a copy builds under the two keys every attempt sets. *)
Lemma built_authorization c cfg tok :
  headers_of c cfg tok !! "Authorization"
  = Some (Some ("Bearer " ++ template_string tok)%string).
Proof.
  destruct c; cbn [headers_of];
    rewrite ?helpers_headers_lookup, part000_headers_lookup;
    by rewrite ?andb_false_r.
Qed.

Lemma built_content_type c cfg tok :
  headers_of c cfg tok !! "Content-Type" = Some (Some "application/json").
Proof.
  destruct c; cbn [headers_of];
    rewrite ?helpers_headers_lookup, part000_headers_lookup;
    by rewrite ?andb_false_r.
Qed.

(** Outside its built keys a copy adds nothing. *)
Lemma built_other c cfg tok key :
  key ∉ built_keys c cfg tok → headers_of c cfg tok !! key = None.
Proof.
  intros Hkey. destruct c; cbn [headers_of built_keys] in *.
  - rewrite helpers_headers_lookup, part000_headers_lookup.
    destruct (bool_decide (tok = API_KEY cfg)); cbn [andb];
      repeat case_bool_decide; repeat case_decide; subst;
      try done; exfalso; apply Hkey; set_solver.
  - rewrite part000_headers_lookup.
    repeat case_decide; subst; try done; exfalso; apply Hkey; set_solver.
Qed.

End HeaderFacts.

(** ** [normalizeDomain] on the entries of block lists and allow lists *)

Module NormalizeSpec.
Import Normalize.
Local Open Scope string_scope.

Example hosts_entry : normalizeDomain "0.0.0.0 example.com" false = "example.com".
Proof. reflexivity. Qed.

Example adblock_entry : normalizeDomain "||example.com^" false = "example.com".
Proof. reflexivity. Qed.

Example wildcard_entry : normalizeDomain "*.example.com" false = "example.com".
Proof. reflexivity. Qed.

Example important_entry :
  normalizeDomain "||example.com^$important" false = "example.com".
Proof. reflexivity. Qed.

(** The host prefix is removed wherever the regular expression first
    matches, with all the spaces after it. *)
Example inner_host_prefix :
  normalizeDomain "ads.::1   example.com" false = "ads.example.com".
Proof. reflexivity. Qed.

(** The marker [@@||] is looked for after [||] has been removed, so it is
    found only when the entry holds [||] twice. *)
Example allow_marker_after_bars :
  normalizeDomain "||@@||example.com" true = "example.com".
Proof. reflexivity. Qed.

(** C2: [normalizeDomain("@@||example.com", true)] is expected to be
    ["example.com"]. The code returns ["@@example.com"]: the chain of
    replacements removes the first [||] before the allow-list step looks
    for [@@||], which is then no longer there. *)
Theorem normalizeDomain_allow_entry :
  normalizeDomain "@@||example.com" true = "@@example.com"
  ∧ normalizeDomain "@@||example.com" true ≠ "example.com".
Proof. split; [reflexivity|]. vm_compute. discriminate. Qed.

End NormalizeSpec.

(** ** The token rotation *)

Module RotationSpec.
Import Js Http Loop Copies LoopFacts BodyFacts.

(** C7: for a credential set of size [N ≥ 1] and a starting index
    [i < N], the rotation step [(index + 1) mod N] applied [N] times gives
    [i] again, and no smaller positive number of steps does: the rotation
    is one cycle through all the indices. In a run the index repeats with
    period [N]. *)
Theorem rotation_full_cycle (N i : nat) :
  1 ≤ N → i < N →
  Nat.iter N (rotate N) (Idx i) = Idx i
  ∧ (∀ k, 0 < k < N → Nat.iter k (rotate N) (Idx i) ≠ Idx i)
  ∧ (∀ k, Nat.iter k (rotate N) (Idx i) = Idx ((i + k) mod N))
  ∧ (∀ c cfg k, length (tokens_of c cfg) = N →
       index_at c cfg (k + N) = index_at c cfg k).
Proof.
  intros HN Hi. repeat split.
  - rewrite iter_rotate by done.
    replace (i + N) with (i + 1 * N) by lia.
    by rewrite Nat.Div0.mod_add, Nat.mod_small.
  - intros k Hk. rewrite iter_rotate by done. intros [= Heq].
    destruct (decide (i + k < N)) as [Hsmall|Hbig].
    + rewrite Nat.mod_small in Heq by done. lia.
    + replace (i + k) with ((i + k - N) + 1 * N) in Heq by lia.
      rewrite Nat.Div0.mod_add, Nat.mod_small in Heq by lia. lia.
  - intros k. by apply iter_rotate.
  - intros c cfg k Hlen.
    assert (tokens_of c cfg ≠ []) as Hne by (intros Hnil; rewrite Hnil in Hlen; simpl in Hlen; lia).
    rewrite !index_at_nonempty, Hlen by done.
    replace (k + N) with (k + 1 * N) by lia.
    by rewrite Nat.Div0.mod_add.
Qed.

Lemma rotation_full_cycle_witness :
  1 ≤ 3 ∧ 1 < 3 ∧ Nat.iter 3 (rotate 3) (Idx 1) = Idx 1.
Proof.
  split; [lia|]. split; [lia|].
  apply (rotation_full_cycle 3 1); lia.
Defined.

End RotationSpec.

(** ** The headers of an attempt *)

Module HeaderSpec.
Import Js Http Loop Copies LoopFacts BodyFacts RunFacts HeaderFacts Scenarios.

(** Every pass through the body of [src/lib/helpers.js] calls [fetch]
    first, with the headers built from the current token. *)
Lemma helpers_body_fetches cfg w url options st :
  head (events_of (Helpers.body cfg w url options st))
  = Some (EFetch url
            (with_headers options
               (Helpers.headers cfg (at_index (Helpers.tokens cfg) (tokenIndex st))))).
Proof.
  unfold Helpers.body.
  by destruct (try_fetch _ _ _ _) as [st' [body|error]].
Qed.

(** A pass through the body of [src/unnamed/part_000] either skips an
    empty slot or calls [fetch] first, with the headers built from the
    current token. *)
Lemma part000_body_fetches cfg w url options st :
  let currentToken := at_index (Part000.allTokens cfg) (tokenIndex st) in
  if truthy_string currentToken
  then head (events_of (Part000.body cfg w url options st))
       = Some (EFetch url (with_headers options (Part000.headers currentToken)))
  else events_of (Part000.body cfg w url options st) = [].
Proof.
  intros currentToken. subst currentToken. unfold Part000.body.
  destruct (truthy_string _); cbn [negb]; [|done].
  destruct (try_fetch _ _ _ _) as [st' [body|error]]; [done|].
  by destruct (_ <=? _).
Qed.

(** C10: in [src/lib/helpers.js] the header record built for an attempt
    holds [X-Auth-Email] (the configured account email) and [X-Auth-Key]
    (the configured API key) exactly when the current token is equal to
    [API_KEY], and neither key otherwise; the record built in
    [src/unnamed/part_000] never holds them. The built record is the one
    each attempt hands to [fetch], merged over the caller's headers. *)
Theorem x_auth_headers cfg w url options st (tok : option string) :
  let currentToken := at_index (Helpers.tokens cfg) (tokenIndex st) in
  head (events_of (Helpers.body cfg w url options st))
  = Some (EFetch url (with_headers options (Helpers.headers cfg currentToken)))
  ∧ Helpers.headers cfg tok !! "X-Auth-Email"
    = (if bool_decide (tok = API_KEY cfg) then Some (ACCOUNT_EMAIL cfg) else None)
  ∧ Helpers.headers cfg tok !! "X-Auth-Key"
    = (if bool_decide (tok = API_KEY cfg) then Some (API_KEY cfg) else None)
  ∧ Part000.headers tok !! "X-Auth-Email" = None
  ∧ Part000.headers tok !! "X-Auth-Key" = None
  ∧ (let currentToken' := at_index (Part000.allTokens cfg) (tokenIndex st) in
     if truthy_string currentToken'
     then head (events_of (Part000.body cfg w url options st))
          = Some (EFetch url (with_headers options (Part000.headers currentToken')))
     else events_of (Part000.body cfg w url options st) = []).
Proof.
  intros currentToken. split; [apply helpers_body_fetches|].
  rewrite !helpers_headers_lookup, !part000_headers_lookup.
  destruct (bool_decide (tok = API_KEY cfg)); cbn [andb];
    repeat split; try done; apply part000_body_fetches.
Qed.

(** C8, as the code has it: in a complete run, the [k]-th call of [fetch]
    goes to the URL of the caller with the caller's method and body, and
    its header record maps [Authorization] to ["Bearer " ++ currentToken]
    and [Content-Type] to ["application/json"], whatever the caller put
    under those keys. A caller header under another key is kept, except
    that in [src/lib/helpers.js] the keys [X-Auth-Email] and [X-Auth-Key]
    are overridden too when the current token is equal to [API_KEY]. *)
Theorem sent_headers c cfg w url options fuel k u init key :
  maxAttempts ≤ fuel →
  fetches (trace (request_of c cfg w url options fuel)) !! k = Some (u, init) →
  let currentToken := at_index (tokens_of c cfg) (index_at c cfg k) in
  u = url
  ∧ init_method init = init_method options
  ∧ init_body init = init_body options
  ∧ ∃ hs, init_headers init = Some hs
      ∧ hs !! "Authorization" = Some (Some ("Bearer " ++ template_string currentToken)%string)
      ∧ hs !! "Content-Type" = Some (Some "application/json"%string)
      ∧ (key ∉ built_keys c cfg currentToken → hs !! key = own_headers options !! key).
Proof.
  intros Hfuel Hk currentToken. subst currentToken.
  assert (c = Part000Js → tokens_of c cfg ≠ []) as Hne.
  { intros -> Hnil.
    destruct (part000_no_credentials cfg w url options fuel Hnil) as (Htrace & _).
    cbn [request_of] in Hk. by rewrite Htrace in Hk. }
  rewrite (request_fetches cfg w url options c fuel Hfuel Hne) in Hk.
  apply list_lookup_fmap_Some in Hk as (k' & [= -> ->] & Hseq).
  apply lookup_seq in Hseq as [-> _]. cbn [plus].
  repeat split. unfold init_at. cbn [with_headers init_headers].
  eexists. split; [done|]. rewrite !lookup_spread.
  rewrite built_authorization, built_content_type. repeat split.
  intros Hkey. by rewrite built_other.
Qed.

Lemma sent_headers_witness :
  maxAttempts ≤ 50
  ∧ fetches (trace (request_of HelpersJs key_as_token always_forbidden lists_url
                      get_with_headers 50)) !! 0
    = Some (lists_url, init_at HelpersJs key_as_token get_with_headers 0)
  ∧ ∃ hs, init_headers (init_at HelpersJs key_as_token get_with_headers 0) = Some hs
      ∧ hs !! "Authorization" = Some (Some "Bearer global-key"%string).
Proof.
  assert (fetches (trace (request_of HelpersJs key_as_token always_forbidden lists_url
                            get_with_headers 50)) !! 0
          = Some (lists_url, init_at HelpersJs key_as_token get_with_headers 0)) as Hfirst
    by (vm_compute; reflexivity).
  split; [unfold maxAttempts; lia|]. split; [exact Hfirst|].
  destruct (sent_headers HelpersJs key_as_token always_forbidden lists_url
              get_with_headers 50 0 _ _ "Accept"%string
              ltac:(unfold maxAttempts; lia) Hfirst)
    as (_ & _ & _ & hs & Hhs & Hauth & _).
  exists hs. split; [exact Hhs|exact Hauth].
Defined.

(** C8, as stated, fails in [src/lib/helpers.js]: the caller's
    [X-Auth-Key] is neither [Authorization] nor [Content-Type], and it is
    replaced when the token in use is the configured API key. *)
Lemma caller_x_auth_key_overridden :
  ∃ init hs,
    fetches (trace (Helpers.request key_as_token always_forbidden lists_url
                      get_with_headers 50)) !! 0 = Some (lists_url, init)
    ∧ init_headers init = Some hs
    ∧ own_headers get_with_headers !! "X-Auth-Key" = Some (Some "mine"%string)
    ∧ hs !! "X-Auth-Key" = Some (Some "global-key"%string).
Proof.
  eexists _, _. split; [vm_compute; reflexivity|].
  split; [reflexivity|]. split; vm_compute; reflexivity.
Qed.

End HeaderSpec.

(** ** The retry loop of [request] *)

Module RequestSpec.
Import Js Http Loop Copies LoopFacts BodyFacts TraceFacts RunFacts HeaderFacts Scenarios.
Import JsString.

(** The [catch] block of [src/unnamed/part_000] always ends the last
    attempt by raising. *)
Lemma failure_raised resp seen_data error :
  raised (Part000.failure resp seen_data error) = true.
Proof.
  unfold Part000.failure. destruct resp; [|done].
  by destruct (Part000.described seen_data).
Qed.

(** The error raised by [src/unnamed/part_000] after the last attempt. *)
Example failure_without_response :
  Part000.failure None None (JsError "TypeError" "fetch failed") = ThrownTypeError.
Proof. reflexivity. Qed.

Example failure_without_body :
  Part000.failure (Some {| status := 502 |}) None
    (JsError "SyntaxError" "Unexpected token < in JSON at position 0")
  = Thrown (new_Error
      "HTTP error! Status: 502 - undefined - SyntaxError: Unexpected token < in JSON at position 0").
Proof. vm_compute. reflexivity. Qed.

Example failure_with_errors :
  Part000.failure (Some {| status := 403 |}) (Some forbidden_body)
    (new_Error "Response not OK")
  = Thrown (new_Error
      "HTTP error! Status: 403 - Invalid access token - Error: Response not OK").
Proof. vm_compute. reflexivity. Qed.

Example failure_with_empty_errors :
  Part000.failure (Some {| status := 500 |}) (Some (JObj [("errors", JArr [])]))
    (new_Error "Response not OK")
  = ThrownTypeError.
Proof. reflexivity. Qed.

Example failure_with_plain_object :
  Part000.failure (Some {| status := 500 |}) (Some (JObj [("success", JBool false)]))
    (new_Error "Response not OK")
  = Thrown (new_Error
      "HTTP error! Status: 500 - [object Object] - Error: Response not OK").
Proof. vm_compute. reflexivity. Qed.

(** The status of the last response is part of the notification. *)
Lemma notification_contains seen :
  contains
    match seen with
    | Some resp => pretty (status resp)
    | None => "unknown status"%string
    end
    (Part000.notification seen).
Proof. unfold contains, Part000.notification. eauto. Qed.

(** A complete run makes at most [maxAttempts] attempts. *)
Lemma attempts_made_bound c cfg w url options :
  0 < attempts_made c cfg w url options ≤ maxAttempts.
Proof.
  unfold attempts_made.
  destruct (first_success c cfg w url options 0 maxAttempts) as [[j body]|] eqn:Hfirst.
  - apply first_success_Some in Hfirst as (Hj & _). lia.
  - unfold maxAttempts. lia.
Qed.

(** C6: in a complete run in which attempt [k] (counted from 0) is made
    and is answered by a response in the 2xx range whose body parses, the
    call returns that body; attempt [k] is the last call of [fetch] and
    the last event of the run, so no delay and no further attempt follow;
    the attempt counter and the token index are those attempt [k] started
    with, so no rotation follows either. *)
Theorem success_ends_the_call c cfg w url options fuel k resp body :
  maxAttempts ≤ fuel →
  k < length (fetches (trace (request_of c cfg w url options fuel))) →
  result_at c cfg w url options k = JsonParsed resp body →
  ok resp = true →
  let r := request_of c cfg w url options fuel in
  outcome r = Some (Returned body)
  ∧ fetches (trace r) = (λ j, (url, init_at c cfg options j)) <$> seq 0 (S k)
  ∧ last (trace r) = Some (EFetch url (init_at c cfg options k))
  ∧ attempts (final r) = k
  ∧ tokenIndex (final r) = index_at c cfg k
  ∧ calls (final r) = S k.
Proof.
  intros Hfuel Hk Hres Hok r. subst r.
  assert (returned (result_at c cfg w url options k) = Some body) as Hret
    by (by rewrite Hres; cbn [returned]; rewrite Hok).
  assert (c = Part000Js → tokens_of c cfg ≠ []) as Hne.
  { intros -> Hnil.
    destruct (part000_no_credentials cfg w url options fuel Hnil) as (Htrace & _).
    cbn [request_of] in Hk. rewrite Htrace in Hk. cbn in Hk. lia. }
  pose proof (request_fetches cfg w url options c fuel Hfuel Hne) as Hfetches.
  rewrite Hfetches, length_fmap, length_seq in Hk. rewrite Hfetches.
  unfold attempts_made in *.
  destruct (first_success c cfg w url options 0 maxAttempts) as [[j body']|] eqn:Hfirst.
  - apply first_success_Some in Hfirst as Hspec. destruct Hspec as (Hj & Hfail & Hsucc).
    cbn [plus] in Hsucc.
    assert (k = j) as ->.
    { destruct (decide (k = j)); [done|].
      rewrite Hfail in Hret by lia. done. }
    assert (body' = body) as -> by congruence.
    split; [|split; [done|]].
    + destruct c; cbn [request_of].
      * pose proof (helpers_request cfg w url options fuel Hfuel) as Hrun.
        cbv zeta in Hrun. rewrite Hfirst in Hrun. by destruct Hrun as (_ & -> & _).
      * pose proof (part000_request cfg w url options fuel Hfuel (Hne eq_refl)) as Hrun.
        cbv zeta in Hrun. rewrite Hfirst in Hrun. by destruct Hrun as (_ & -> & _).
    + destruct c; cbn [request_of].
      * pose proof (helpers_request cfg w url options fuel Hfuel) as Hrun.
        cbv zeta in Hrun. rewrite Hfirst in Hrun.
        destruct Hrun as (-> & _ & -> & -> & ->). by rewrite last_snoc.
      * pose proof (part000_request cfg w url options fuel Hfuel (Hne eq_refl)) as Hrun.
        cbv zeta in Hrun. rewrite Hfirst in Hrun.
        destruct Hrun as (-> & _ & -> & -> & ->). by rewrite last_snoc.
  - apply first_success_None with (k := k) in Hfirst; [congruence|lia].
Qed.

Lemma success_ends_the_call_witness :
  maxAttempts ≤ 50
  ∧ 1 < length (fetches (trace (request_of Part000Js two_tokens second_ok lists_url get 50)))
  ∧ result_at Part000Js two_tokens second_ok lists_url get 1
    = JsonParsed {| status := 200 |} lists_body
  ∧ ok {| status := 200 |} = true
  ∧ outcome (request_of Part000Js two_tokens second_ok lists_url get 50)
    = Some (Returned lists_body).
Proof.
  assert (1 < length (fetches (trace (request_of Part000Js two_tokens second_ok
                                        lists_url get 50)))) as Hmade
    by (vm_compute; lia).
  split; [unfold maxAttempts; lia|]. split; [exact Hmade|].
  split; [reflexivity|]. split; [reflexivity|].
  apply (success_ends_the_call Part000Js two_tokens second_ok lists_url get 50 1
           {| status := 200 |} lists_body);
    [unfold maxAttempts; lia|exact Hmade|reflexivity|reflexivity].
Defined.

(** C1, as the code has it. With a non-empty credential set of [N]
    tokens and [f] failed attempts in a complete run:
    - in [src/lib/helpers.js] the 5000 ms delay follows the failed attempt
      [k] (counted from 0) exactly when [k + 1] is a multiple of [N], that
      is when the index has wrapped to 0, so there are [f / N] delays, one
      per full cycle;
    - in [src/unnamed/part_000] the 5000 ms delay follows every failed
      attempt, except the last one allowed, which notifies and raises. *)
Theorem backoff_delays c cfg w url options fuel :
  maxAttempts ≤ fuel →
  tokens_of c cfg ≠ [] →
  let r := request_of c cfg w url options fuel in
  let N := length (tokens_of c cfg) in
  let f := attempts (final r) in
  f ≤ maxAttempts
  ∧ match c with
    | HelpersJs =>
        trace r
        = flat_map (λ k, EFetch url (init_at c cfg options k)
                         :: (if S k mod N =? 0 then [EWait 5000%N] else []))
            (seq 0 f)
          ++ (if f <? maxAttempts then [EFetch url (init_at c cfg options f)] else [])
        ∧ waits (trace r) = replicate (f / N) 5000%N
    | Part000Js =>
        trace r
        = flat_map (λ k, [EFetch url (init_at c cfg options k); EWait 5000%N])
            (seq 0 (f `min` (maxAttempts - 1)))
          ++ (if f <? maxAttempts then [EFetch url (init_at c cfg options f)]
              else [EFetch url (init_at c cfg options (maxAttempts - 1));
                    ENotify (Part000.notification
                               (last_response c cfg w url options 0 maxAttempts None))])
        ∧ waits (trace r) = replicate (f `min` (maxAttempts - 1)) 5000%N
    end.
Proof.
  intros Hfuel Hne r N f. subst r N f. destruct c; cbn [request_of].
  - pose proof (helpers_request cfg w url options fuel Hfuel) as Hrun.
    cbv zeta in Hrun.
    assert (∀ l, flat_map (λ k, EFetch url (init_at HelpersJs cfg options k)
                   :: (if S k mod length (tokens_of HelpersJs cfg) =? 0
                       then [EWait 5000%N] else [])) l
                 = flat_map (failed_attempt_helpers HelpersJs cfg url options) l) as Hext.
    { intros l. apply flat_map_ext. intros k. unfold failed_attempt_helpers.
      by rewrite backoff_on_wrap_mod. }
    rewrite Hext.
    destruct (first_success HelpersJs cfg w url options 0 maxAttempts)
      as [[j body]|] eqn:Hfirst; destruct Hrun as (-> & _ & -> & _).
    + apply first_success_Some in Hfirst as (Hj & _).
      split; [lia|]. destruct (Nat.ltb_spec j maxAttempts); [|lia].
      split; [done|]. unfold waits. rewrite omap_app. fold waits.
      rewrite waits_failed_helpers by done. cbn [omap]. by rewrite app_nil_r.
    + split; [done|]. destruct (Nat.ltb_spec maxAttempts maxAttempts); [lia|].
      rewrite app_nil_r. split; [done|]. by apply waits_failed_helpers.
  - pose proof (part000_request cfg w url options fuel Hfuel Hne) as Hrun.
    cbv zeta in Hrun.
    change (λ k, [EFetch url (init_at Part000Js cfg options k); EWait 5000%N])
      with (failed_attempt_part000 Part000Js cfg url options).
    destruct (first_success Part000Js cfg w url options 0 maxAttempts)
      as [[j body]|] eqn:Hfirst; destruct Hrun as (-> & _ & -> & _).
    + apply first_success_Some in Hfirst as (Hj & _).
      split; [lia|]. destruct (Nat.ltb_spec j maxAttempts); [|lia].
      replace (j `min` (maxAttempts - 1)) with j by (unfold maxAttempts in *; lia).
      split; [done|]. unfold waits. rewrite omap_app. fold waits.
      rewrite waits_failed_part000. cbn [omap]. by rewrite app_nil_r.
    + split; [done|]. destruct (Nat.ltb_spec maxAttempts maxAttempts); [lia|].
      replace (maxAttempts `min` (maxAttempts - 1)) with (maxAttempts - 1)
        by (unfold maxAttempts; lia).
      split; [done|]. unfold waits. rewrite omap_app. fold waits.
      rewrite waits_failed_part000. cbn [omap]. by rewrite app_nil_r.
Qed.

Lemma backoff_delays_witness :
  maxAttempts ≤ 50
  ∧ tokens_of HelpersJs two_tokens ≠ []
  ∧ waits (trace (request_of HelpersJs two_tokens always_forbidden lists_url get 50))
    = replicate
        (attempts (final (request_of HelpersJs two_tokens always_forbidden lists_url get 50))
         / length (tokens_of HelpersJs two_tokens))
        5000%N.
Proof.
  split; [unfold maxAttempts; lia|]. split; [vm_compute; discriminate|].
  apply (backoff_delays HelpersJs two_tokens always_forbidden lists_url get 50);
    [unfold maxAttempts; lia|vm_compute; discriminate].
Defined.

(** C1, as stated, fails in [src/unnamed/part_000]: with two tokens, the
    first failed attempt moves the index from 0 to 1, which completes no
    cycle, and a delay follows it all the same; 50 failed attempts make 25
    cycles and 49 delays. *)
Lemma part000_delay_without_wrap :
  ∃ init rest,
    trace (Part000.request two_tokens always_forbidden lists_url get 50)
    = EFetch lists_url init :: EWait 5000%N :: rest
    ∧ index_at Part000Js two_tokens 1 = Idx 1
    ∧ length (waits (trace (Part000.request two_tokens always_forbidden lists_url get 50)))
      = 49
    ∧ maxAttempts / length (Part000.allTokens two_tokens) = 25.
Proof.
  eexists _, _. split; [vm_compute; reflexivity|].
  repeat split; vm_compute; reflexivity.
Qed.

(** C3, as the code has it. When all [maxAttempts] attempts of a complete
    run fail:
    - [src/unnamed/part_000] (with a non-empty credential set) calls the
      notifier once, as its last effect before it raises; the message
      holds the status of the last response received, or
      ["unknown status"] when no attempt received a response;
    - [src/lib/helpers.js] raises
      ['All tokens failed after maximum attempts'] and never calls the
      notifier. *)
Theorem exhaustion_notification c cfg w url options fuel :
  maxAttempts ≤ fuel →
  (c = Part000Js → tokens_of c cfg ≠ []) →
  (∀ k, k < maxAttempts → returned (result_at c cfg w url options k) = None) →
  let r := request_of c cfg w url options fuel in
  let seen := last_response c cfg w url options 0 maxAttempts None in
  match c with
  | HelpersJs =>
      notifications (trace r) = []
      ∧ outcome r = Some (Thrown (new_Error "All tokens failed after maximum attempts"))
  | Part000Js =>
      (∃ before, trace r = before ++ [ENotify (Part000.notification seen)]
                 ∧ notifications before = [])
      ∧ (∃ raise, outcome r = Some raise ∧ raised raise = true)
      ∧ contains
          match seen with
          | Some resp => pretty (status resp)
          | None => "unknown status"%string
          end
          (Part000.notification seen)
  end.
Proof.
  intros Hfuel Hne Hfail r seen. subst r seen.
  assert (first_success c cfg w url options 0 maxAttempts = None) as Hfirst.
  { apply first_success_None. intros k Hk. apply Hfail. lia. }
  destruct c; cbn [request_of].
  - pose proof (helpers_request cfg w url options fuel Hfuel) as Hrun.
    cbv zeta in Hrun. rewrite Hfirst in Hrun. destruct Hrun as (-> & -> & _).
    split; [apply notifications_failed_helpers|done].
  - pose proof (part000_request cfg w url options fuel Hfuel (Hne eq_refl)) as Hrun.
    cbv zeta in Hrun. rewrite Hfirst in Hrun. destruct Hrun as (-> & -> & _).
    split; [|split].
    + eexists (_ ++ [_]). rewrite <- app_assoc. split; [done|].
      unfold notifications. rewrite omap_app. fold notifications.
      by rewrite notifications_failed_part000.
    + eexists. split; [done|]. apply failure_raised.
    + apply notification_contains.
Qed.

Lemma exhaustion_notification_witness :
  maxAttempts ≤ 50
  ∧ (Part000Js = Part000Js → tokens_of Part000Js two_tokens ≠ [])
  ∧ (∀ k, k < maxAttempts →
       returned (result_at Part000Js two_tokens always_forbidden lists_url get k) = None)
  ∧ ∃ before,
      trace (request_of Part000Js two_tokens always_forbidden lists_url get 50)
      = before
        ++ [ENotify "An HTTP error has occurred (403) while making a web request. Please check the logs for further details."].
Proof.
  assert (∀ k, k < maxAttempts →
            returned (result_at Part000Js two_tokens always_forbidden lists_url get k)
            = None) as Hfail by (intros k _; reflexivity).
  split; [unfold maxAttempts; lia|]. split; [intros _; vm_compute; discriminate|].
  split; [exact Hfail|].
  destruct (exhaustion_notification Part000Js two_tokens always_forbidden lists_url get 50
              ltac:(unfold maxAttempts; lia)
              ltac:(intros _; vm_compute; discriminate) Hfail)
    as ((before & Htrace & _) & _).
  exists before. exact Htrace.
Defined.

(** C3, as stated, fails in [src/lib/helpers.js]: 50 attempts answered
    403 end in a raised error, and the notifier was never called. *)
Lemma helpers_exhaustion_without_notification :
  length (fetches (trace (Helpers.request two_tokens always_forbidden lists_url get 50)))
  = 50
  ∧ outcome (Helpers.request two_tokens always_forbidden lists_url get 50)
    = Some (Thrown (new_Error "All tokens failed after maximum attempts"))
  ∧ notifications (trace (Helpers.request two_tokens always_forbidden lists_url get 50))
    = [].
Proof. repeat split; vm_compute; reflexivity. Qed.

(** The [Authorization] header of each call of a trace. *)
Local Abbreviation authorizations t :=
  ((λ call : string * RequestInit,
      init_headers call.2 ≫= (.!! "Authorization"%string)) <$> fetches t).

(** C4: with an empty credential set the call is expected to make no HTTP
    attempt and to fail at once. Neither copy does:
    - [src/lib/helpers.js] reads [tokens[0]], which is undefined, and
      sends ["Bearer undefined"] on each of its 50 attempts before it
      raises; it returns the body if the server answers 200;
    - [src/unnamed/part_000] makes no attempt, but skips the empty slot
      for ever: whatever the number of iterations, the call has not
      ended. *)
Theorem no_credentials_behaviour :
  tokens_of HelpersJs no_credentials = []
  ∧ tokens_of Part000Js no_credentials = []
  ∧ authorizations (trace (Helpers.request no_credentials always_forbidden lists_url get 50))
    = replicate 50 (Some (Some "Bearer undefined"%string))
  ∧ outcome (Helpers.request no_credentials always_forbidden lists_url get 50)
    = Some (Thrown (new_Error "All tokens failed after maximum attempts"))
  ∧ outcome (Helpers.request no_credentials always_ok lists_url get 50)
    = Some (Returned lists_body)
  ∧ ∀ w url options fuel,
      trace (Part000.request no_credentials w url options fuel) = []
      ∧ outcome (Part000.request no_credentials w url options fuel) = None.
Proof.
  split; [reflexivity|]. split; [reflexivity|].
  split; [vm_compute; reflexivity|].
  split; [vm_compute; reflexivity|].
  split; [vm_compute; reflexivity|].
  intros w url options fuel.
  destruct (part000_no_credentials no_credentials w url options fuel eq_refl)
    as (Htrace & Hout & _).
  done.
Qed.

(** C5: every call is expected to make at most 50 attempts and to end
    either with one returned body or with one raised error. A complete run
    never makes more than 50 calls of [fetch], and it ends that way in
    [src/lib/helpers.js] always and in [src/unnamed/part_000] when the
    credential set is not empty. With an empty credential set
    [src/unnamed/part_000] does not end at all. *)
Theorem attempts_bounded c cfg w url options fuel :
  maxAttempts ≤ fuel →
  let r := request_of c cfg w url options fuel in
  length (fetches (trace r)) ≤ maxAttempts
  ∧ if spins c cfg
    then outcome r = None ∧ fetches (trace r) = []
    else (∃ body, outcome r = Some (Returned body))
         ∨ (∃ raise, outcome r = Some raise ∧ raised raise = true
                     ∧ length (fetches (trace r)) = maxAttempts).
Proof.
  intros Hfuel r. subst r. destruct (spins c cfg) eqn:Hspin.
  - destruct c; [done|]. apply bool_decide_eq_true_1 in Hspin as Hnil.
    cbn [request_of].
    destruct (part000_no_credentials cfg w url options fuel Hnil)
      as (-> & -> & _).
    split; [cbn; lia|done].
  - assert (c = Part000Js → tokens_of c cfg ≠ []) as Hne
      by (intros ->; by apply bool_decide_eq_false_1 in Hspin).
    rewrite (request_fetches cfg w url options c fuel Hfuel Hne).
    rewrite length_fmap, length_seq.
    split; [apply attempts_made_bound|].
    unfold attempts_made. destruct c; cbn [request_of].
    + pose proof (helpers_request cfg w url options fuel Hfuel) as Hrun.
      cbv zeta in Hrun.
      destruct (first_success HelpersJs cfg w url options 0 maxAttempts)
        as [[j body]|]; destruct Hrun as (_ & -> & _); [left; eauto|].
      right. eexists. done.
    + pose proof (part000_request cfg w url options fuel Hfuel (Hne eq_refl)) as Hrun.
      cbv zeta in Hrun.
      destruct (first_success Part000Js cfg w url options 0 maxAttempts)
        as [[j body]|]; destruct Hrun as (_ & -> & _); [left; eauto|].
      right. eexists. split; [done|]. split; [apply failure_raised|done].
Qed.

Lemma attempts_bounded_witness :
  maxAttempts ≤ 50
  ∧ outcome (request_of Part000Js no_credentials always_ok lists_url get 50) = None.
Proof.
  split; [unfold maxAttempts; lia|].
  apply (attempts_bounded Part000Js no_credentials always_ok lists_url get 50).
  unfold maxAttempts; lia.
Defined.

(** Runs that get the same answers succeed at the same attempt. *)
Lemma first_success_ext c1 c2 cfg w url options from n :
  (∀ k, result_at c1 cfg w url options k = result_at c2 cfg w url options k) →
  first_success c1 cfg w url options from n = first_success c2 cfg w url options from n.
Proof.
  intros Hsame. revert from. induction n as [|n IH]; intros from; [done|].
  cbn [first_success]. by rewrite Hsame, IH.
Qed.

(** When both copies have the same credentials in the same order and no
    credential is the API key, they build the same requests. *)
Lemma same_inits cfg options k :
  Helpers.tokens cfg = Part000.allTokens cfg →
  Part000.allTokens cfg ≠ [] →
  (∀ tok, tok ∈ Helpers.tokens cfg → API_KEY cfg ≠ Some tok) →
  index_at HelpersJs cfg k = index_at Part000Js cfg k
  ∧ init_at HelpersJs cfg options k = init_at Part000Js cfg options k.
Proof.
  intros Hsame Hne Hkey.
  assert (index_at HelpersJs cfg k = index_at Part000Js cfg k) as Hidx
    by (unfold index_at; cbn [tokens_of]; by rewrite Hsame).
  split; [done|]. unfold init_at. rewrite Hidx. cbn [tokens_of headers_of].
  rewrite Hsame.
  destruct (current_token cfg Part000Js k Hne) as (tok & Htok & Hin & _).
  cbn [tokens_of] in Htok, Hin. rewrite Htok. f_equal.
  apply map_eq. intros key. rewrite helpers_headers_lookup.
  rewrite bool_decide_eq_false_2; [done|].
  intros Heq. apply (Hkey tok); [by rewrite Hsame|done].
Qed.

(** C9, as the code has it. The two copies are not equivalent. They agree
    on this much: when their filtered credential lists are the same
    non-empty list and no credential is equal to [API_KEY], then against
    the same network a complete run of each makes the same calls of
    [fetch] in the same order, fails the same number of attempts, ends on
    the same token index, returns the same body if an attempt succeeds,
    and raises if all 50 fail. The delays, the notification and the error
    raised are not part of the agreement. *)
Theorem copies_agree_on_attempts cfg w url options fuel :
  maxAttempts ≤ fuel →
  Helpers.tokens cfg = Part000.allTokens cfg →
  Part000.allTokens cfg ≠ [] →
  (∀ tok, tok ∈ Helpers.tokens cfg → API_KEY cfg ≠ Some tok) →
  let r1 := Helpers.request cfg w url options fuel in
  let r2 := Part000.request cfg w url options fuel in
  fetches (trace r1) = fetches (trace r2)
  ∧ attempts (final r1) = attempts (final r2)
  ∧ tokenIndex (final r1) = tokenIndex (final r2)
  ∧ (∀ body, outcome r1 = Some (Returned body) ↔ outcome r2 = Some (Returned body))
  ∧ ((∃ raise, outcome r1 = Some raise ∧ raised raise = true)
     ↔ (∃ raise, outcome r2 = Some raise ∧ raised raise = true)).
Proof.
  intros Hfuel Hsame Hne Hkey r1 r2. subst r1 r2.
  assert (∀ k, result_at HelpersJs cfg w url options k
               = result_at Part000Js cfg w url options k) as Hres.
  { intros k. unfold result_at.
    by destruct (same_inits cfg options k Hsame Hne Hkey) as (_ & ->). }
  pose proof (first_success_ext HelpersJs Part000Js cfg w url options 0 maxAttempts Hres)
    as Hfirst.
  pose proof (request_fetches cfg w url options HelpersJs fuel Hfuel
                ltac:(discriminate)) as Hf1.
  pose proof (request_fetches cfg w url options Part000Js fuel Hfuel
                (λ _, Hne)) as Hf2.
  cbn [request_of] in Hf1, Hf2. unfold attempts_made in Hf1, Hf2.
  pose proof (helpers_request cfg w url options fuel Hfuel) as Hrun1.
  pose proof (part000_request cfg w url options fuel Hfuel Hne) as Hrun2.
  cbv zeta in Hrun1, Hrun2. rewrite Hfirst in Hrun1, Hf1.
  split.
  { rewrite Hf1, Hf2. apply list_fmap_ext. intros _ k _.
    by destruct (same_inits cfg options k Hsame Hne Hkey) as (_ & ->). }
  destruct (first_success Part000Js cfg w url options 0 maxAttempts) as [[j body]|].
  - destruct Hrun1 as (_ & -> & -> & -> & _), Hrun2 as (_ & -> & -> & -> & _).
    split; [done|]. split; [by apply same_inits|]. split; [done|].
    split; intros (raise & [= <-] & Hraised); done.
  - destruct Hrun1 as (_ & -> & -> & -> & _), Hrun2 as (_ & -> & -> & -> & _).
    split; [done|]. split; [by apply same_inits|]. split.
    { intros body. split; [done|]. intros Hreturned.
      apply (inj Some) in Hreturned.
      assert (raised (Returned body) = true) as Hraised
        by (rewrite <- Hreturned; apply failure_raised).
      done. }
    split; intros _; eexists; (split; [done|]); [apply failure_raised|done].
Qed.

Lemma copies_agree_on_attempts_witness :
  maxAttempts ≤ 50
  ∧ Helpers.tokens one_token = Part000.allTokens one_token
  ∧ Part000.allTokens one_token ≠ []
  ∧ (∀ tok, tok ∈ Helpers.tokens one_token → API_KEY one_token ≠ Some tok)
  ∧ fetches (trace (Helpers.request one_token second_ok lists_url get 50))
    = fetches (trace (Part000.request one_token second_ok lists_url get 50)).
Proof.
  split; [unfold maxAttempts; lia|]. split; [reflexivity|].
  split; [vm_compute; discriminate|]. split; [intros tok _; discriminate|].
  apply (copies_agree_on_attempts one_token second_ok lists_url get 50);
    [unfold maxAttempts; lia|reflexivity|vm_compute; discriminate
    |intros tok _; discriminate].
Defined.

(** C9, as stated, fails: with [API_TOKEN] and [API_TOKEN_1] configured
    and every request answered 403, [src/lib/helpers.js] starts with
    [API_TOKEN_1], waits 25 times, never notifies and raises one error;
    [src/unnamed/part_000] starts with [API_TOKEN], waits 49 times,
    notifies once and raises another error. *)
Lemma copies_differ :
  authorizations (trace (Helpers.request two_tokens always_forbidden lists_url get 50)) !! 0
  = Some (Some (Some "Bearer token-1"%string))
  ∧ authorizations (trace (Part000.request two_tokens always_forbidden lists_url get 50)) !! 0
    = Some (Some (Some "Bearer token-0"%string))
  ∧ length (waits (trace (Helpers.request two_tokens always_forbidden lists_url get 50)))
    = 25
  ∧ length (waits (trace (Part000.request two_tokens always_forbidden lists_url get 50)))
    = 49
  ∧ notifications (trace (Helpers.request two_tokens always_forbidden lists_url get 50))
    = []
  ∧ notifications (trace (Part000.request two_tokens always_forbidden lists_url get 50))
    = ["An HTTP error has occurred (403) while making a web request. Please check the logs for further details."%string]
  ∧ outcome (Helpers.request two_tokens always_forbidden lists_url get 50)
    = Some (Thrown (new_Error "All tokens failed after maximum attempts"))
  ∧ outcome (Part000.request two_tokens always_forbidden lists_url get 50)
    = Some (Thrown (new_Error
        "HTTP error! Status: 403 - Invalid access token - Error: Response not OK")).
Proof. repeat split; vm_compute; reflexivity. Qed.

End RequestSpec.

(** ** Strings *)

Module StringFacts.
Import JsString.
Local Open Scope string_scope.

Lemma append_cons c (s t : string) : String c s ++ t = String c (s ++ t).
Proof. reflexivity. Qed.

Lemma append_nil_l (s : string) : "" ++ s = s.
Proof. reflexivity. Qed.

Lemma append_assoc (s1 s2 s3 : string) : (s1 ++ s2) ++ s3 = s1 ++ (s2 ++ s3).
Proof. induction s1 as [|c s1 IH]; [done|]. by rewrite !append_cons, IH. Qed.

Lemma append_nil_r (s : string) : s ++ "" = s.
Proof. induction s as [|c s IH]; [done|]. by rewrite append_cons, IH. Qed.

Lemma length_append (s1 s2 : string) :
  String.length (s1 ++ s2) = String.length s1 + String.length s2.
Proof.
  induction s1 as [|c s1 IH]; [done|].
  rewrite append_cons. cbn [String.length]. by rewrite IH.
Qed.

Lemma strip_prefix_app p s : strip_prefix p (p ++ s) = Some s.
Proof.
  induction p as [|c p IH]; [done|]. rewrite append_cons. cbn [strip_prefix].
  by rewrite decide_True.
Qed.

Lemma strip_prefix_Some p s rest : strip_prefix p s = Some rest → s = p ++ rest.
Proof.
  revert s. induction p as [|c p IH]; intros s; cbn [strip_prefix].
  - by intros [= ->].
  - destruct s as [|b s]; [done|]. case_decide as Hcb; [|done].
    intros Hrest. subst b. rewrite append_cons. f_equal. by apply IH.
Qed.

End StringFacts.

(** ** The webhook notifier *)

Module WebhookSpec.
Import Js Http Loop JsonText Webhook StringFacts.
Local Open Scope string_scope.

(** The reader undoes the escaping of one character. *)
Lemma read_quote_char c s :
  read_chars (quote_char c ++ s) = prod_map (String c) id <$> read_chars s.
Proof.
  destruct c as [[] [] [] [] [] [] [] []]; reflexivity.
Qed.

Lemma read_quote_chars m rest :
  read_chars (quote_chars m ++ String dquote rest) = Some (m, rest).
Proof.
  induction m as [|c m IH]; [done|].
  cbn [quote_chars]. rewrite append_assoc, read_quote_char, IH. done.
Qed.

Lemma read_content_payload message :
  read_content (stringify_payload message) = Some message.
Proof.
  unfold read_content, stringify_payload.
  set (rest := "," ++ stringify_string "body" ++ ":" ++ stringify_string message ++ "}").
  replace ("{" ++ stringify_string "content" ++ ":" ++ stringify_string message ++ rest)
    with (("{" ++ stringify_string "content" ++ ":") ++ stringify_string message ++ rest)
    by (by rewrite !append_assoc).
  rewrite strip_prefix_app.
  unfold stringify_string at 1. rewrite append_cons, append_assoc, append_cons.
  by rewrite read_quote_chars.
Qed.

(** The text [sendMessageToWebhook] posts determines the message: the
    escaping of [JSON.stringify] loses nothing and two messages never
    give the same body. *)
Theorem payload_determines_message m1 m2 :
  stringify_payload m1 = stringify_payload m2 → m1 = m2.
Proof.
  intros Heq. apply (f_equal read_content) in Heq.
  rewrite !read_content_payload in Heq. congruence.
Qed.

Lemma payload_determines_message_witness :
  stringify_payload "List updated" = stringify_payload "List updated"
  ∧ "List updated" = "List updated".
Proof.
  split; [reflexivity|].
  apply (payload_determines_message "List updated" "List updated"). reflexivity.
Defined.

Lemma send_message_normal net url message :
  ∃ sent, (sendMessageToWebhook net url message).2 = Normal sent.
Proof.
  unfold sendMessageToWebhook. cbn [snd].
  destruct (net url (post_init message)) as [e|response]; [by eexists|].
  destruct (ok response); by eexists.
Qed.

(** [sendMessageToWebhook] never raises. It makes one call of [fetch] on
    the URL it is given, a POST whose body reads back as the message, and
    it returns [true] exactly when that call resolves with a status in the
    2xx range; a rejected call or any other status gives [false]. *)
Theorem send_message_result net url message :
  (sendMessageToWebhook net url message).1 = [EFetch url (post_init message)]
  ∧ init_method (post_init message) = Some "POST"
  ∧ init_body (post_init message) ≫= read_content = Some message
  ∧ (sendMessageToWebhook net url message).2
    = Normal match net url (post_init message) with
             | Resolved response => ok response
             | Rejected _ => false
             end.
Proof.
  split; [done|]. split; [done|]. split.
  - cbn [post_init init_body mbind option_bind]. apply read_content_payload.
  - unfold sendMessageToWebhook. cbn [snd].
    destruct (net url (post_init message)) as [e|response]; [done|].
    by destruct (ok response).
Qed.

(** An empty URL does not start with [http]. *)
Lemma starts_with_truthy u :
  truthy_string (Some u) && starts_with "http" u = starts_with "http" u.
Proof. by destruct u. Qed.

(** [notifyWebhook] never raises, whatever the webhook server does. It
    posts, once, exactly when [DISCORD_WEBHOOK_URL] is set and starts with
    [http]; the message sent is the one given, after ["CGPS: "]. With the
    variable unset, empty or starting otherwise, it does nothing. *)
Theorem notify_webhook_effects webhook_url net msg :
  (notifyWebhook webhook_url net msg).2 = Normal tt
  ∧ (notifyWebhook webhook_url net msg).1
    = match webhook_url with
      | Some u =>
          if starts_with "http" u then [EFetch u (post_init ("CGPS: " ++ msg))] else []
      | None => []
      end.
Proof.
  unfold notifyWebhook. destruct webhook_url as [u|]; [|done].
  cbn [template_string]. rewrite starts_with_truthy.
  destruct (starts_with "http" u); [|done].
  split; [|done]. cbn [snd].
  by destruct (send_message_normal net u ("CGPS: " ++ msg)) as (sent & ->).
Qed.

(** The check on the URL is only a prefix check. *)
Example notify_accepts_any_http_prefix :
  (notifyWebhook (Some "httpx") (λ _ _, Rejected (JsError "TypeError" "Invalid URL"))
     "done").1
  = [EFetch "httpx" (post_init "CGPS: done")].
Proof. reflexivity. Qed.

Example notify_ignores_other_schemes :
  (notifyWebhook (Some "ftp://example.org/hook")
     (λ _ _, Resolved {| status := 204 |}) "done").1 = [].
Proof. reflexivity. Qed.

End WebhookSpec.

(** ** [requestGateway] and what [request] may do *)

Module GatewaySpec.
Import Js Http Loop Copies LoopFacts Gateway.

(** A property of every event of every pass through the body holds of
    every event of a run, complete or not. *)
Lemma while_attempts_Forall (P : event → Prop) body exit :
  (∀ st, Forall P (events_of (body st))) →
  ∀ fuel st, Forall P (trace (while_attempts body exit fuel st)).
Proof.
  intros Hbody. induction fuel as [|fuel IH]; intros st.
  - cbn [while_attempts]. destruct (_ <? _); by constructor.
  - destruct (Nat.ltb_spec (attempts st) maxAttempts).
    + rewrite while_attempts_enter by done. specialize (Hbody st).
      destruct (body st) as [st' evs|st' evs c]; cbn [events_of] in Hbody; [|done].
      cbn [after trace]. apply Forall_app. split; [done|apply IH].
    + rewrite while_attempts_exit by done. by constructor.
Qed.

Lemma helpers_body_allowed cfg w url options st :
  Forall (allowed_event HelpersJs url options)
    (events_of (Helpers.body cfg w url options st)).
Proof.
  unfold Helpers.body.
  destruct (try_fetch _ _ _ _) as [st' [body|error]]; cbn [events_of].
  - by repeat constructor.
  - constructor; [done|]. destruct (is_zero _); by repeat constructor.
Qed.

Lemma part000_body_allowed cfg w url options st :
  Forall (allowed_event Part000Js url options)
    (events_of (Part000.body cfg w url options st)).
Proof.
  unfold Part000.body. destruct (negb _); [by constructor|].
  destruct (try_fetch _ _ _ _) as [st' [body|error]]; cbn [events_of].
  - by repeat constructor.
  - destruct (_ <=? _); by repeat constructor.
Qed.

(** In a run of [requestGateway], complete or not, every call of [fetch]
    goes to the one URL built from [API_HOST], [ACCOUNT_ID] and the path,
    with the method and the body of the caller; every delay is 5000 ms;
    and [src/lib/helpers.js] never calls the notifier. *)
Theorem gateway_events c cfg w path options fuel :
  Forall (allowed_event c (gateway_url cfg path) options)
    (trace (requestGateway c cfg w path options fuel)).
Proof.
  unfold requestGateway. destruct c; cbn [request_of].
  - apply while_attempts_Forall. intros st. apply helpers_body_allowed.
  - apply while_attempts_Forall. intros st. apply part000_body_allowed.
Qed.

(** An unset host or account identifier is written into the URL as the
    text [undefined]. *)
Example gateway_url_unset :
  gateway_url Scenarios.no_credentials "/lists"%string
  = "https://api.example/accounts/account/gateway/lists"%string
  ∧ gateway_url
      {| ACCOUNT_EMAIL := None; ACCOUNT_ID := None; API_HOST := None; API_KEY := None;
         API_TOKEN := None; API_TOKEN_1 := None; API_TOKEN_2 := None;
         API_TOKEN_3 := None |} "/rules"%string
    = "undefined/accounts/undefined/gateway/rules"%string.
Proof. split; reflexivity. Qed.

End GatewaySpec.

(** ** The credentials and the errors of [request] *)

Module CredentialSpec.
Import Js Http Loop Copies LoopFacts BodyFacts TraceFacts RunFacts HeaderFacts.

Lemma filter_Boolean_app l1 l2 :
  filter_Boolean (l1 ++ l2) = filter_Boolean l1 ++ filter_Boolean l2.
Proof.
  induction l1 as [|[s|] l1 IH]; cbn [filter_Boolean app]; [done| |done].
  destruct (truthy_string (Some s)); [|done]. by rewrite IH.
Qed.

Lemma truthy_string_Some (s : string) :
  truthy_string (Some s) = true ↔ s ≠ ""%string.
Proof.
  cbn [truthy_string]. rewrite negb_true_iff, bool_decide_eq_false. done.
Qed.

Lemma elem_of_filter_Boolean tok l :
  tok ∈ filter_Boolean l ↔ tok ≠ ""%string ∧ Some tok ∈ l.
Proof.
  induction l as [|[s|] l IH]; cbn [filter_Boolean].
  - split; [by intros ?%elem_of_nil|by intros [_ ?%elem_of_nil]].
  - destruct (truthy_string (Some s)) eqn:Hs.
    + apply truthy_string_Some in Hs. rewrite !elem_of_cons, IH.
      split; [intros [->|[? ?]]; eauto|intros [? [[= ->]|?]]; eauto].
    + apply (f_equal negb) in Hs. cbn in Hs. rewrite negb_involutive in Hs.
      apply bool_decide_eq_true in Hs. subst s.
      rewrite elem_of_cons, IH.
      split; [intros [? ?]; eauto|intros [? [[= ->]|?]]; [done|eauto]].
  - rewrite elem_of_cons, IH. split; [intros [? ?]; eauto|intros [? [|?]]; [done|eauto]].
Qed.

(** Both copies of [request] use the configured tokens that are set and
    not empty, and only those. The two lists hold the same credentials, at
    most four: [src/unnamed/part_000] tries [API_TOKEN] first,
    [src/lib/helpers.js] tries it last. *)
Theorem credential_sets cfg tok :
  let numbered := [API_TOKEN_1 cfg; API_TOKEN_2 cfg; API_TOKEN_3 cfg] in
  (tok ∈ Helpers.tokens cfg ↔ tok ≠ ""%string ∧ Some tok ∈ numbered ++ [API_TOKEN cfg])
  ∧ (tok ∈ Part000.allTokens cfg
     ↔ tok ≠ ""%string ∧ Some tok ∈ API_TOKEN cfg :: numbered)
  ∧ Helpers.tokens cfg = filter_Boolean numbered ++ filter_Boolean [API_TOKEN cfg]
  ∧ Part000.allTokens cfg = filter_Boolean [API_TOKEN cfg] ++ filter_Boolean numbered
  ∧ Helpers.tokens cfg ≡ₚ Part000.allTokens cfg
  ∧ length (Helpers.tokens cfg) ≤ 4.
Proof.
  intros numbered.
  assert (Helpers.tokens cfg = filter_Boolean numbered ++ filter_Boolean [API_TOKEN cfg])
    as Hhelpers by (unfold Helpers.tokens; by rewrite <- filter_Boolean_app).
  assert (Part000.allTokens cfg = filter_Boolean [API_TOKEN cfg] ++ filter_Boolean numbered)
    as Hpart by (unfold Part000.allTokens; by rewrite <- filter_Boolean_app).
  split; [apply elem_of_filter_Boolean|]. split; [apply elem_of_filter_Boolean|].
  split; [done|]. split; [done|]. split.
  - rewrite Hhelpers, Hpart. apply Permutation_app_comm.
  - unfold Helpers.tokens. cbn [filter_Boolean].
    repeat match goal with
           | |- context [match ?o with Some _ => _ | None => _ end] => destruct o
           | |- context [if ?b then _ else _] => destruct b
           end; cbn [length]; lia.
Qed.

(** With a non-empty credential set, attempt [k] of a complete run sends
    [Authorization: Bearer t] where [t] is the token at position [k mod N]
    of the [N] credentials, a configured token that is not empty: the
    tokens are used in turn, and never the text [undefined]. *)
Theorem bearer_of_attempt c cfg w url options fuel k u init :
  maxAttempts ≤ fuel →
  tokens_of c cfg ≠ [] →
  fetches (trace (request_of c cfg w url options fuel)) !! k = Some (u, init) →
  ∃ tok hs,
    tokens_of c cfg !! (k mod length (tokens_of c cfg)) = Some tok
    ∧ tok ≠ ""%string
    ∧ init_headers init = Some hs
    ∧ hs !! "Authorization"%string = Some (Some ("Bearer " ++ tok)%string).
Proof.
  intros Hfuel Hne Hk.
  rewrite (request_fetches cfg w url options c fuel Hfuel (λ _, Hne)) in Hk.
  apply list_lookup_fmap_Some in Hk as (k' & [= -> ->] & Hseq).
  apply lookup_seq in Hseq as [-> _]. cbn [plus].
  destruct (current_token cfg c k Hne) as (tok & Htok & _ & Htruthy).
  exists tok. eexists. split.
  { by rewrite index_at_nonempty in Htok. }
  split; [by apply truthy_string_Some|].
  unfold init_at. cbn [with_headers init_headers]. split; [done|].
  rewrite lookup_spread, built_authorization, Htok. done.
Qed.

Lemma bearer_of_attempt_witness :
  maxAttempts ≤ 50
  ∧ tokens_of HelpersJs Scenarios.two_tokens ≠ []
  ∧ fetches (trace (request_of HelpersJs Scenarios.two_tokens Scenarios.always_forbidden
                      Scenarios.lists_url Scenarios.get 50)) !! 3
    = Some (Scenarios.lists_url, init_at HelpersJs Scenarios.two_tokens Scenarios.get 3)
  ∧ ∃ tok, tokens_of HelpersJs Scenarios.two_tokens !! (3 mod 2) = Some tok.
Proof.
  assert (fetches (trace (request_of HelpersJs Scenarios.two_tokens
                            Scenarios.always_forbidden Scenarios.lists_url
                            Scenarios.get 50)) !! 3
          = Some (Scenarios.lists_url,
                  init_at HelpersJs Scenarios.two_tokens Scenarios.get 3)) as Hfourth
    by (vm_compute; reflexivity).
  split; [unfold maxAttempts; lia|]. split; [vm_compute; discriminate|].
  split; [exact Hfourth|].
  destruct (bearer_of_attempt HelpersJs Scenarios.two_tokens Scenarios.always_forbidden
              Scenarios.lists_url Scenarios.get 50 3 _ _
              ltac:(unfold maxAttempts; lia) ltac:(vm_compute; discriminate) Hfourth)
    as (tok & _ & Htok & _).
  exists tok. exact Htok.
Defined.

End CredentialSpec.

(** ** The error [src/unnamed/part_000] raises after the last attempt *)

Module ExhaustionSpec.
Import Js Http Loop Copies LoopFacts BodyFacts TraceFacts RunFacts.

Section last.
Context (c : copy) (cfg : Config) (w : World) (url : string) (options : RequestInit).



(** Attempts that [fetch] rejects leave the response variable alone. *)
Lemma last_response_rejected n : ∀ from seen,
  (∀ k, from ≤ k < from + n →
        ∃ e, result_at c cfg w url options k = FetchRejected e) →
  last_response c cfg w url options from n seen = seen.
Proof.
  induction n as [|n IH]; intros from seen Hrej; [done|].
  cbn [last_response]. destruct (Hrej from ltac:(lia)) as (e & ->).
  cbn [observe]. apply IH. intros k Hk. apply Hrej. lia.
Qed.

End last.

(** When [fetch] rejects every one of the 50 attempts (the network is
    down), [src/unnamed/part_000] has no response to read the status of:
    the notification says [unknown status], and the error raised is the
    TypeError of reading [response.status], not the [HTTP error!] one. *)
Theorem network_down cfg w url options fuel :
  maxAttempts ≤ fuel →
  Part000.allTokens cfg ≠ [] →
  (∀ k, k < maxAttempts →
        ∃ e, result_at Part000Js cfg w url options k = FetchRejected e) →
  let r := Part000.request cfg w url options fuel in
  outcome r = Some ThrownTypeError
  ∧ notifications (trace r) = [Part000.notification None]
  ∧ JsString.contains "unknown status" (Part000.notification None)
  ∧ length (fetches (trace r)) = maxAttempts.
Proof.
  intros Hfuel Hne Hrej r. subst r.
  assert (first_success Part000Js cfg w url options 0 maxAttempts = None) as Hfirst.
  { apply first_success_None. intros k Hk.
    destruct (Hrej k ltac:(lia)) as (e & ->). done. }
  assert (last_response Part000Js cfg w url options 0 maxAttempts None = None) as Hseen.
  { apply last_response_rejected. intros k Hk. apply Hrej. lia. }
  pose proof (part000_request cfg w url options fuel Hfuel Hne) as Hrun.
  cbv zeta in Hrun. rewrite Hfirst, Hseen in Hrun.
  destruct Hrun as (Htrace & Hout & _).
  split; [by rewrite Hout|]. split; [|split].
  - rewrite Htrace. unfold notifications. rewrite omap_app. fold notifications.
    by rewrite notifications_failed_part000.
  - unfold JsString.contains, Part000.notification. eauto.
  - change (Part000.request cfg w url options fuel)
      with (request_of Part000Js cfg w url options fuel).
    rewrite (request_fetches cfg w url options Part000Js fuel Hfuel (λ _, Hne)).
    rewrite length_fmap, length_seq. unfold attempts_made. by rewrite Hfirst.
Qed.

Lemma network_down_witness :
  maxAttempts ≤ 50
  ∧ Part000.allTokens Scenarios.one_token ≠ []
  ∧ (∀ k, k < maxAttempts →
       ∃ e, result_at Part000Js Scenarios.one_token
              (λ _ _ _, FetchRejected (JsError "TypeError" "fetch failed"))
              Scenarios.lists_url Scenarios.get k
            = FetchRejected e)
  ∧ outcome (Part000.request Scenarios.one_token
               (λ _ _ _, FetchRejected (JsError "TypeError" "fetch failed"))
               Scenarios.lists_url Scenarios.get 50)
    = Some ThrownTypeError.
Proof.
  split; [unfold maxAttempts; lia|]. split; [vm_compute; discriminate|].
  split; [intros k _; eexists; reflexivity|].
  apply (network_down Scenarios.one_token
           (λ _ _ _, FetchRejected (JsError "TypeError" "fetch failed"))
           Scenarios.lists_url Scenarios.get 50);
    [unfold maxAttempts; lia|vm_compute; discriminate
    |intros k _; eexists; reflexivity].
Defined.



End ExhaustionSpec.

(** ** [normalizeDomain] on entries of the usual shapes *)

Module NormalizeRules.
Import JsString Normalize Plain StringFacts.
Local Open Scope string_scope.

(** The characters other than [c]. *)
Local Abbreviation other_than c := (λ x : ascii, negb (bool_decide (x = c))).
Local Abbreviation no_space := (λ x : ascii, negb (is_space x)).

Lemma all_chars_app p s t : all_chars p (s ++ t) = all_chars p s && all_chars p t.
Proof.
  induction s as [|c s IH]; [done|].
  rewrite append_cons. cbn [all_chars]. by rewrite IH, andb_assoc.
Qed.

Lemma all_chars_impl (p q : ascii → bool) s :
  (∀ x, p x = true → q x = true) → all_chars p s = true → all_chars q s = true.
Proof.
  intros Hpq. induction s as [|c s IH]; [done|]. cbn [all_chars].
  rewrite !andb_true_iff. intros [? ?]. auto.
Qed.

Lemma plain_no_space s : plain s → all_chars no_space s = true.
Proof.
  apply all_chars_impl. intros x. unfold plain_char.
  rewrite andb_true_iff. by intros [? _].
Qed.

Lemma plain_other_than c s :
  is_marker c = true → plain s → all_chars (other_than c) s = true.
Proof.
  intros Hc. apply all_chars_impl. intros x. unfold plain_char.
  rewrite andb_true_iff, !negb_true_iff. intros [_ Hx].
  apply bool_decide_eq_false. intros ->. congruence.
Qed.

(** One step of [replace_first]. *)
Lemma replace_first_eq pat s :
  replace_first pat s
  = match strip_prefix pat s with
    | Some rest => rest
    | None =>
        match s with
        | EmptyString => EmptyString
        | String a s' => String a (replace_first pat s')
        end
    end.
Proof. by destruct s. Qed.

Lemma replace_first_prefix pat rest : replace_first pat (pat ++ rest) = rest.
Proof. by rewrite replace_first_eq, strip_prefix_app. Qed.

(** No match starts inside a part that does not hold the first character
    of the pattern. *)
Lemma replace_first_skip c pat d s :
  all_chars (other_than c) d = true →
  replace_first (String c pat) (d ++ s) = d ++ replace_first (String c pat) s.
Proof.
  induction d as [|x d IH]; [done|]. cbn [all_chars].
  rewrite andb_true_iff, negb_true_iff, bool_decide_eq_false. intros [Hx Hd].
  rewrite !append_cons, replace_first_eq. cbn [strip_prefix].
  rewrite decide_False by congruence. by rewrite IH.
Qed.

Lemma replace_first_absent c pat d :
  all_chars (other_than c) d = true → replace_first (String c pat) d = d.
Proof.
  intros Hd. rewrite <- (append_nil_r d) at 1.
  rewrite replace_first_skip by done. cbn. apply append_nil_r.
Qed.

(** A match of the host prefix needs a space. *)
Lemma match_alternative_space alt s rest :
  match_alternative alt s = Some rest → all_chars no_space s = false.
Proof.
  unfold match_alternative.
  destruct (strip_prefix alt s) as [[|a after]|] eqn:Hstrip; [done| |done].
  destruct (is_space a) eqn:Ha; [|done]. intros _.
  apply strip_prefix_Some in Hstrip as ->.
  rewrite all_chars_app. cbn [all_chars]. rewrite Ha. cbn [negb andb].
  apply andb_false_r.
Qed.

Lemma match_alternatives_space alts s rest :
  match_alternatives alts s = Some rest → all_chars no_space s = false.
Proof.
  induction alts as [|alt alts IH]; [done|]. cbn [match_alternatives].
  destruct (match_alternative alt s) as [r|] eqn:Halt; [|done].
  intros _. by eapply match_alternative_space.
Qed.

Lemma strip_host_prefix_eq s :
  strip_host_prefix s
  = match match_alternatives host_prefixes s with
    | Some rest => rest
    | None =>
        match s with
        | EmptyString => EmptyString
        | String a s' => String a (strip_host_prefix s')
        end
    end.
Proof. by destruct s. Qed.

Lemma strip_host_prefix_no_space s :
  all_chars no_space s = true → strip_host_prefix s = s.
Proof.
  induction s as [|a s IH]; [done|]. intros Hs.
  rewrite strip_host_prefix_eq.
  destruct (match_alternatives host_prefixes (String a s)) as [rest|] eqn:Hmatch.
  - apply match_alternatives_space in Hmatch. congruence.
  - cbn [all_chars] in Hs. apply andb_true_iff in Hs as [_ Hs]. by rewrite IH.
Qed.

Lemma skip_spaces_run ws d :
  all_chars is_space ws = true → all_chars no_space d = true →
  skip_spaces (ws ++ d) = d.
Proof.
  intros Hws Hd. induction ws as [|a ws IH].
  - destruct d as [|x d]; [done|]. cbn [all_chars] in Hd.
    apply andb_true_iff in Hd as [Hx _]. apply negb_true_iff in Hx.
    rewrite append_nil_l. cbn [skip_spaces]. by rewrite Hx.
  - cbn [all_chars] in Hws. apply andb_true_iff in Hws as [Ha Hws].
    rewrite append_cons. cbn [skip_spaces]. rewrite Ha. by apply IH.
Qed.

(** The rules after the host prefix leave a plain string alone. *)
Lemma rules_plain d (isAllowlisting : bool) :
  plain d →
  (if isAllowlisting
   then replace_first "@@||"
          (replace_first "^" (replace_first "*." (replace_first "^$important"
             (replace_first "||" d))))
   else replace_first "^" (replace_first "*." (replace_first "^$important"
          (replace_first "||" d))))
  = d.
Proof.
  intros Hd.
  rewrite (replace_first_absent "|" "|" d) by (by apply plain_other_than).
  rewrite (replace_first_absent "^" "$important" d) by (by apply plain_other_than).
  rewrite (replace_first_absent "*" "." d) by (by apply plain_other_than).
  rewrite (replace_first_absent "^" "" d) by (by apply plain_other_than).
  destruct isAllowlisting; [|done].
  by rewrite (replace_first_absent "@" "@||" d) by (by apply plain_other_than).
Qed.

(** Removing a match only deletes characters. *)
Lemma replace_first_all_chars p pat s :
  all_chars p s = true → all_chars p (replace_first pat s) = true.
Proof.
  induction s as [|a s IH]; intros Hs; rewrite replace_first_eq.
  - destruct (strip_prefix pat "") as [rest|] eqn:Hstrip; [|done].
    apply strip_prefix_Some in Hstrip. rewrite Hstrip, all_chars_app in Hs.
    by apply andb_true_iff in Hs as [_ ?].
  - destruct (strip_prefix pat (String a s)) as [rest|] eqn:Hstrip.
    + apply strip_prefix_Some in Hstrip. rewrite Hstrip, all_chars_app in Hs.
      by apply andb_true_iff in Hs as [_ ?].
    + cbn [all_chars] in Hs |- *. apply andb_true_iff in Hs as [Ha Hs].
      by rewrite Ha, IH.
Qed.

Lemma replace_first_length pat s :
  (String.length (replace_first pat s) ≤ String.length s)%nat.
Proof.
  induction s as [|a s IH]; rewrite replace_first_eq.
  - destruct (strip_prefix pat "") as [rest|] eqn:Hstrip; [|done].
    apply strip_prefix_Some in Hstrip. apply (f_equal String.length) in Hstrip.
    rewrite length_append in Hstrip. lia.
  - destruct (strip_prefix pat (String a s)) as [rest|] eqn:Hstrip.
    + apply strip_prefix_Some in Hstrip. apply (f_equal String.length) in Hstrip.
      rewrite length_append in Hstrip. lia.
    + cbn [String.length]. lia.
Qed.

Lemma skip_spaces_all_chars p s :
  all_chars p s = true → all_chars p (skip_spaces s) = true.
Proof.
  induction s as [|a s IH]; [done|]. cbn [skip_spaces all_chars].
  destruct (is_space a); [|done]. rewrite andb_true_iff. intros [_ ?]. auto.
Qed.

Lemma skip_spaces_length s : (String.length (skip_spaces s) ≤ String.length s)%nat.
Proof.
  induction s as [|a s IH]; [done|]. cbn [skip_spaces].
  destruct (is_space a); cbn [String.length]; lia.
Qed.

(** A match of the host prefix: an alternative, a space, and what is kept
    after the spaces. *)
Lemma match_alternatives_Some alts s rest :
  match_alternatives alts s = Some rest →
  ∃ alt a after, s = alt ++ String a after ∧ rest = skip_spaces after.
Proof.
  induction alts as [|alt alts IH]; [done|]. cbn [match_alternatives].
  destruct (match_alternative alt s) as [r|] eqn:Halt; [|done].
  intros [= <-]. unfold match_alternative in Halt.
  destruct (strip_prefix alt s) as [[|a after]|] eqn:Hstrip; [done| |done].
  destruct (is_space a); [|done]. injection Halt as <-.
  apply strip_prefix_Some in Hstrip. eauto.
Qed.

Lemma strip_host_prefix_all_chars p s :
  all_chars p s = true → all_chars p (strip_host_prefix s) = true.
Proof.
  induction s as [|x s IH]; intros Hs; rewrite strip_host_prefix_eq.
  - destruct (match_alternatives host_prefixes "") as [rest|] eqn:Hmatch; [|done].
    apply match_alternatives_Some in Hmatch as (alt & a & after & Heq & ->).
    rewrite Heq, all_chars_app in Hs. cbn [all_chars] in Hs.
    apply skip_spaces_all_chars.
    apply andb_true_iff in Hs as [_ Hs]. by apply andb_true_iff in Hs as [_ ?].
  - destruct (match_alternatives host_prefixes (String x s)) as [rest|] eqn:Hmatch.
    + apply match_alternatives_Some in Hmatch as (alt & a & after & Heq & ->).
      rewrite Heq, all_chars_app in Hs. cbn [all_chars] in Hs.
      apply skip_spaces_all_chars.
      apply andb_true_iff in Hs as [_ Hs]. by apply andb_true_iff in Hs as [_ ?].
    + cbn [all_chars] in Hs |- *. apply andb_true_iff in Hs as [Hx Hs].
      by rewrite Hx, IH.
Qed.

Lemma strip_host_prefix_length s :
  (String.length (strip_host_prefix s) ≤ String.length s)%nat.
Proof.
  induction s as [|x s IH]; rewrite strip_host_prefix_eq.
  - destruct (match_alternatives host_prefixes "") as [rest|] eqn:Hmatch; [|done].
    apply match_alternatives_Some in Hmatch as (alt & a & after & Heq & ->).
    apply (f_equal String.length) in Heq. rewrite length_append in Heq.
    cbn [String.length] in Heq. pose proof (skip_spaces_length after). lia.
  - destruct (match_alternatives host_prefixes (String x s)) as [rest|] eqn:Hmatch.
    + apply match_alternatives_Some in Hmatch as (alt & a & after & Heq & ->).
      apply (f_equal String.length) in Heq. rewrite length_append in Heq.
      cbn [String.length] in Heq |- *. pose proof (skip_spaces_length after). lia.
    + cbn [String.length]. lia.
Qed.

Lemma normalized_all_chars p value :
  all_chars p value = true →
  all_chars p
    (replace_first "^" (replace_first "*." (replace_first "^$important"
       (replace_first "||" (strip_host_prefix value))))) = true.
Proof.
  intros Hv. do 4 apply replace_first_all_chars.
  by apply strip_host_prefix_all_chars.
Qed.

(** An entry with no space and none of the characters [|], [^], [*], [@]
    (a bare domain, for one) is returned as it is, for both values of the
    flag. *)
Theorem bare_domain_unchanged value isAllowlisting :
  plain value → normalizeDomain value isAllowlisting = value.
Proof.
  intros Hplain. unfold normalizeDomain.
  rewrite strip_host_prefix_no_space by (by apply plain_no_space).
  cbv zeta. by apply rules_plain.
Qed.

Lemma bare_domain_unchanged_witness :
  plain "ads.example-cdn.com" ∧ normalizeDomain "ads.example-cdn.com" false = "ads.example-cdn.com".
Proof.
  split; [reflexivity|]. apply bare_domain_unchanged. reflexivity.
Defined.

(** A line of a hosts file: one of the addresses [0.0.0.0], [127.0.0.1],
    [::1], [::], then one or more spaces of any kind, then a bare domain.
    The address and all the spaces are removed. *)
Theorem hosts_line alt ws domain isAllowlisting :
  alt ∈ host_prefixes → spaces ws → plain domain →
  normalizeDomain (alt ++ ws ++ domain) isAllowlisting = domain.
Proof.
  intros Halt [Hne Hws] Hplain.
  destruct ws as [|a ws']; [done|]. cbn [all_chars] in Hws.
  apply andb_true_iff in Hws as [Ha Hws].
  assert (∀ p, match_alternative p (p ++ String a ws' ++ domain) = Some domain) as Hhere.
  { intros p. unfold match_alternative.
    rewrite append_cons, strip_prefix_app, Ha. f_equal.
    apply skip_spaces_run; [done|by apply plain_no_space]. }
  assert (match_alternatives host_prefixes (alt ++ String a ws' ++ domain) = Some domain)
    as Hmatch.
  { unfold host_prefixes in *. cbn [match_alternatives].
    apply elem_of_cons in Halt as [->|Halt]; [by rewrite Hhere|].
    apply elem_of_cons in Halt as [->|Halt].
    { change (match_alternative "0.0.0.0" ("127.0.0.1" ++ String a ws' ++ domain))
        with (@None string).
      by rewrite Hhere. }
    apply elem_of_cons in Halt as [->|Halt].
    { change (match_alternative "0.0.0.0" ("::1" ++ String a ws' ++ domain))
        with (@None string).
      change (match_alternative "127.0.0.1" ("::1" ++ String a ws' ++ domain))
        with (@None string).
      by rewrite Hhere. }
    apply elem_of_cons in Halt as [->|Halt]; [|by apply elem_of_nil in Halt].
    change (match_alternative "0.0.0.0" ("::" ++ String a ws' ++ domain))
      with (@None string).
    change (match_alternative "127.0.0.1" ("::" ++ String a ws' ++ domain))
      with (@None string).
    assert (match_alternative "::1" ("::" ++ String a ws' ++ domain) = None) as ->.
    { unfold match_alternative.
      change (strip_prefix "::1" ("::" ++ String a ws' ++ domain))
        with (if decide ("1"%char = a) then Some (ws' ++ domain) else None).
      destruct (decide ("1"%char = a)) as [<-|]; [done|done]. }
    by rewrite Hhere. }
  unfold normalizeDomain. rewrite strip_host_prefix_eq, Hmatch.
  cbv zeta. by apply rules_plain.
Qed.

Lemma hosts_line_witness :
  "127.0.0.1" ∈ host_prefixes ∧ spaces "  " ∧ plain "tracker.example.net"
  ∧ normalizeDomain ("127.0.0.1" ++ "  " ++ "tracker.example.net") false
    = "tracker.example.net".
Proof.
  assert ("127.0.0.1" ∈ host_prefixes) as Hin
    by (unfold host_prefixes; apply list_elem_of_further, list_elem_of_here).
  assert (spaces "  ") as Hws by (split; [discriminate|reflexivity]).
  split; [exact Hin|]. split; [exact Hws|]. split; [reflexivity|].
  apply (hosts_line "127.0.0.1" "  " "tracker.example.net" false Hin Hws).
  reflexivity.
Defined.

(** An entry in the syntax of ad-block lists, [||domain^], alone or with
    the option [$important]: the bars, the caret and the option are
    removed. *)
Theorem adblock_line domain isAllowlisting :
  plain domain →
  normalizeDomain ("||" ++ domain ++ "^") isAllowlisting = domain
  ∧ normalizeDomain ("||" ++ domain ++ "^$important") isAllowlisting = domain.
Proof.
  intros Hplain.
  pose proof (plain_no_space domain Hplain) as Hnospace.
  pose proof (plain_other_than "|" domain eq_refl Hplain) as Hbar.
  pose proof (plain_other_than "^" domain eq_refl Hplain) as Hcaret.
  pose proof (plain_other_than "*" domain eq_refl Hplain) as Hstar.
  pose proof (plain_other_than "@" domain eq_refl Hplain) as Hat.
  split; unfold normalizeDomain.
  - rewrite strip_host_prefix_no_space
      by (rewrite !all_chars_app, Hnospace; reflexivity).
    rewrite replace_first_prefix.
    rewrite (replace_first_skip "^" "$important" domain "^") by done.
    change (replace_first "^$important" "^") with "^".
    rewrite (replace_first_skip "*" "." domain "^") by done.
    change (replace_first "*." "^") with "^".
    rewrite (replace_first_skip "^" "" domain "^") by done.
    change (replace_first "^" "^") with "". rewrite append_nil_r.
    cbv zeta. destruct isAllowlisting; [|done].
    by rewrite (replace_first_absent "@" "@||" domain).
  - rewrite strip_host_prefix_no_space
      by (rewrite !all_chars_app, Hnospace; reflexivity).
    rewrite replace_first_prefix.
    rewrite (replace_first_skip "^" "$important" domain "^$important") by done.
    change (replace_first "^$important" "^$important") with "". rewrite append_nil_r.
    rewrite (replace_first_absent "*" "." domain) by done.
    rewrite (replace_first_absent "^" "" domain) by done.
    cbv zeta. destruct isAllowlisting; [|done].
    by rewrite (replace_first_absent "@" "@||" domain).
Qed.

Lemma adblock_line_witness :
  plain "ads.example.com"
  ∧ normalizeDomain ("||" ++ "ads.example.com" ++ "^") false = "ads.example.com".
Proof.
  split; [reflexivity|].
  apply (adblock_line "ads.example.com" false). reflexivity.
Defined.

(** A wildcard entry, [*.domain]: the star and the dot are removed. *)
Theorem wildcard_line domain isAllowlisting :
  plain domain → normalizeDomain ("*." ++ domain) isAllowlisting = domain.
Proof.
  intros Hplain.
  pose proof (plain_no_space domain Hplain) as Hnospace.
  pose proof (plain_other_than "|" domain eq_refl Hplain) as Hbar.
  pose proof (plain_other_than "^" domain eq_refl Hplain) as Hcaret.
  pose proof (plain_other_than "@" domain eq_refl Hplain) as Hat.
  unfold normalizeDomain.
  rewrite strip_host_prefix_no_space
    by (rewrite !all_chars_app, Hnospace; reflexivity).
  rewrite (replace_first_absent "|" "|" ("*." ++ domain))
    by (rewrite all_chars_app, Hbar; reflexivity).
  rewrite (replace_first_absent "^" "$important" ("*." ++ domain))
    by (rewrite all_chars_app, Hcaret; reflexivity).
  rewrite replace_first_prefix.
  rewrite (replace_first_absent "^" "" domain) by done.
  cbv zeta. destruct isAllowlisting; [|done].
  by rewrite (replace_first_absent "@" "@||" domain).
Qed.

Lemma wildcard_line_witness :
  plain "example.org" ∧ normalizeDomain ("*." ++ "example.org") true = "example.org".
Proof.
  split; [reflexivity|]. apply (wildcard_line "example.org" true). reflexivity.
Defined.

(** [normalizeDomain] only deletes: a property that every character of
    the entry has is a property of every character of the result, and the
    result is never longer than the entry. *)
Theorem normalize_only_deletes p value isAllowlisting :
  all_chars p value = true →
  all_chars p (normalizeDomain value isAllowlisting) = true
  ∧ (String.length (normalizeDomain value isAllowlisting) ≤ String.length value)%nat.
Proof.
  intros Hvalue. unfold normalizeDomain. cbv zeta. split.
  - destruct isAllowlisting; [apply replace_first_all_chars|];
      by apply normalized_all_chars.
  - pose proof (strip_host_prefix_length value) as H0.
    pose proof (replace_first_length "||" (strip_host_prefix value)) as H1.
    pose proof (replace_first_length "^$important"
                  (replace_first "||" (strip_host_prefix value))) as H2.
    pose proof (replace_first_length "*."
                  (replace_first "^$important"
                     (replace_first "||" (strip_host_prefix value)))) as H3.
    pose proof (replace_first_length "^"
                  (replace_first "*." (replace_first "^$important"
                     (replace_first "||" (strip_host_prefix value))))) as H4.
    pose proof (replace_first_length "@@||"
                  (replace_first "^" (replace_first "*." (replace_first "^$important"
                     (replace_first "||" (strip_host_prefix value)))))) as H5.
    destruct isAllowlisting; lia.
Qed.

Lemma normalize_only_deletes_witness :
  all_chars (λ c, negb (is_space c)) "||a.example^" = true
  ∧ all_chars (λ c, negb (is_space c)) (normalizeDomain "||a.example^" true) = true.
Proof.
  split; [reflexivity|].
  apply (normalize_only_deletes (λ c, negb (is_space c)) "||a.example^" true).
  reflexivity.
Defined.

(** The flag [isAllowlisting] makes a difference only for an entry that
    holds the character [@]. *)
Theorem allowlisting_needs_at value :
  all_chars (other_than "@"%char) value = true →
  normalizeDomain value true = normalizeDomain value false.
Proof.
  intros Hvalue. unfold normalizeDomain. cbv zeta.
  apply (replace_first_absent "@" "@||"). by apply normalized_all_chars.
Qed.

Lemma allowlisting_needs_at_witness :
  all_chars (other_than "@"%char) "||cdn.example.com^" = true
  ∧ normalizeDomain "||cdn.example.com^" true = normalizeDomain "||cdn.example.com^" false.
Proof.
  split; [reflexivity|]. apply allowlisting_needs_at. reflexivity.
Defined.

End NormalizeRules.
